(** * Medal table parsing and ranking: a verified model

    A shallow embedding of the parse-and-rank routine shared by
    [olympic_medals_v2.py] (function [parse_medals], with the report driver
    [main]) and [olympics.1r.10m+.py] (function [fetch_medals]), and the
    properties of it that the specification states.

    Modelling conventions.
    - A Python [str] is a [string] whose characters are the code points
      0..255; the classes [\s], [\w] and [\d] of the [re] module are the ones
      Python uses on that range.
    - A Python [int] is a [Z]; [int(...)] of a run of decimal digits is its
      decimal value, with no bound on the number of digits.
    - The report driver is modelled from the parsed command line on: what
      [argparse] does with a command line it rejects comes before any of
      the program's own steps.
    - A [dict] is a [gmap], a [set] a [gset]; the order in which a set is
      iterated is not fixed by Python, so it is a parameter [iter] of the
      model, of which only [iter X ≡ₚ elements X] is assumed.
    - A list of dicts mutated in place is a [list] updated by index. *)

From Stdlib Require Import ZArith NArith Ascii String List Bool Lia.
From Stdlib Require Import Sorting.Sorted Sorting.Permutation.
From stdpp Require Import gmap strings list sorting.

Local Open Scope string_scope.
Local Open Scope list_scope.
Local Open Scope Z_scope.

(** ** Characters and character classes *)

Definition ord (c : ascii) : N := N_of_ascii c.

Definition in_range (lo hi : N) (c : ascii) : bool :=
  ((lo <=? ord c) && (ord c <=? hi))%N.

(** [\s] : tab..carriage return, the four separators 28..31, space,
    NEL (133) and the no-break space (160). *)
Definition is_space (c : ascii) : bool :=
  in_range 9 13 c || in_range 28 32 c || in_range 133 133 c
  || in_range 160 160 c.

(** [\d] : the decimal digits. *)
Definition is_digit (c : ascii) : bool := in_range 48 57 c.

(** [\w] : alphanumerics and the underscore. *)
Definition is_word (c : ascii) : bool :=
  in_range 48 57 c || in_range 65 90 c || in_range 95 95 c
  || in_range 97 122 c || in_range 170 170 c || in_range 178 179 c
  || in_range 181 181 c || in_range 185 186 c || in_range 188 190 c
  || in_range 192 214 c || in_range 216 246 c || in_range 248 255 c.

(** [str.lower] on one character. *)
Definition lower_char (c : ascii) : ascii :=
  if in_range 65 90 c || in_range 192 214 c || in_range 216 222 c
  then ascii_of_N (ord c + 32) else c.

Fixpoint lower (s : string) : string :=
  match s with
  | EmptyString => EmptyString
  | String c s' => String (lower_char c) (lower s')
  end.

(** [needle in hay]. *)
Fixpoint contains (needle hay : string) : bool :=
  if String.prefix needle hay then true
  else
    match hay with
    | EmptyString => false
    | String _ hay' => contains needle hay'
    end.

(** [int(s)] for a string of decimal digits. *)
Definition digit_value (c : ascii) : Z := Z.of_N (ord c) - 48.

Fixpoint int_acc (acc : Z) (s : string) : Z :=
  match s with
  | EmptyString => acc
  | String c s' => int_acc (10 * acc + digit_value c) s'
  end.

Definition int (s : string) : Z := int_acc 0 s.

(** ** A backtracking matcher for the regular expressions of the source *)

Module Re.

(** The constructs the four patterns use: a literal character, a greedy
    [cls*], a capturing group [(cls+)] and the lazy [.*?] under [DOTALL]. *)
Inductive item :=
| Lit (c : ascii)
| Star (cls : ascii -> bool)
| Group (cls : ascii -> bool)
| LazyAny.

Definition pattern := list item.

Fixpoint lits (s : string) : pattern :=
  match s with
  | EmptyString => []
  | String c s' => Lit c :: lits s'
  end.

Section Continuations.
Context {A : Type}.
Variable k : string -> option A.

(** Greedy [cls*] followed by [k]: the longest run is tried first. *)
Fixpoint star_then (cls : ascii -> bool) (s : string) : option A :=
  match s with
  | String a s' =>
      if cls a then
        match star_then cls s' with
        | Some r => Some r
        | None => k s
        end
      else k s
  | EmptyString => k s
  end.

(** Greedy capturing [(cls+)] followed by [k]. *)
Fixpoint plus_then (cls : ascii -> bool) (s : string)
  : option (string * A) :=
  match s with
  | String a s' =>
      if cls a then
        match plus_then cls s' with
        | Some (cap, r) => Some (String a cap, r)
        | None =>
            match k s' with
            | Some r => Some (String a EmptyString, r)
            | None => None
            end
        end
      else None
  | EmptyString => None
  end.

(** Lazy [.*?] followed by [k]: the shortest run is tried first. *)
Fixpoint lazy_then (s : string) : option A :=
  match k s with
  | Some r => Some r
  | None =>
      match s with
      | String _ s' => lazy_then s'
      | EmptyString => None
      end
  end.
End Continuations.

(** [match_here p s]: match [p] at the start of [s]; the captured groups in
    order, and the text after the match. *)
Fixpoint match_here (p : pattern) (s : string)
  : option (list string * string) :=
  match p with
  | [] => Some ([], s)
  | Lit c :: p' =>
      match s with
      | String a s' => if Ascii.eqb a c then match_here p' s' else None
      | EmptyString => None
      end
  | Star cls :: p' => star_then (match_here p') cls s
  | Group cls :: p' =>
      match plus_then (match_here p') cls s with
      | Some (cap, (caps, rest)) => Some (cap :: caps, rest)
      | None => None
      end
  | LazyAny :: p' => lazy_then (match_here p') s
  end.

(** The left-to-right scan behind [re.sub] and [re.finditer]: at each
    position either a match is found, and the scan resumes where it ends,
    or the character is passed over. The patterns of the source match at
    least one character, so the length of the text is enough fuel
    ([scan_fuel] below). *)
Inductive token :=
| Skipped (c : ascii)
| Matched (groups : list string).

Fixpoint scan (fuel : nat) (p : pattern) (s : string) : list token :=
  match fuel with
  | O => []
  | S fuel' =>
      match s with
      | EmptyString => []
      | String c s' =>
          match match_here p s with
          | Some (groups, rest) => Matched groups :: scan fuel' p rest
          | None => Skipped c :: scan fuel' p s'
          end
      end
  end.

Fixpoint matches (ts : list token) : list (list string) :=
  match ts with
  | [] => []
  | Matched g :: ts' => g :: matches ts'
  | Skipped _ :: ts' => matches ts'
  end.

Fixpoint unmatched (ts : list token) : string :=
  match ts with
  | [] => EmptyString
  | Skipped c :: ts' => String c (unmatched ts')
  | Matched _ :: ts' => unmatched ts'
  end.

(** [re.finditer(p, s)], each match as the list of its groups. *)
Definition finditer (p : pattern) (s : string) : list (list string) :=
  matches (scan (String.length s) p s).

(** [re.sub(p, '', s)]. *)
Definition sub_empty (p : pattern) (s : string) : string :=
  unmatched (scan (String.length s) p s).

(** [m.group(n)] for [n >= 1]. *)
Definition group (n : nat) (m : list string) : string :=
  nth (n - 1) m EmptyString.

End Re.

(** ** The patterns *)

(** [<!--.*?-->] with [re.DOTALL]. *)
Definition comment_pattern : Re.pattern :=
  Re.lits "<!--" ++ [Re.LazyAny] ++ Re.lits "-->".

(** [\|\s*PREFIX(\w+)\s*=\s*(\d+)]. *)
Definition medal_pattern (prefix : string) : Re.pattern :=
  [Re.Lit "|"; Re.Star is_space] ++ Re.lits prefix
  ++ [Re.Group is_word; Re.Star is_space; Re.Lit "="; Re.Star is_space;
      Re.Group is_digit].

Definition gold_pattern : Re.pattern := medal_pattern "gold_".
Definition silver_pattern : Re.pattern := medal_pattern "silver_".
Definition bronze_pattern : Re.pattern := medal_pattern "bronze_".

Definition strip_comments (wikitext : string) : string :=
  Re.sub_empty comment_pattern wikitext.

(** ** Dictionaries, entries, sorting *)

(** A dict literal or comprehension: later bindings of a key overwrite
    earlier ones. *)
Definition dict_of {V : Type} (kvs : list (string * V)) : gmap string V :=
  foldl (λ d kv, <[kv.1 := kv.2]> d) ∅ kvs.

(** [{m.group(1): int(m.group(2)) for m in ...}]. *)
Definition medal_dict (ms : list (list string)) : gmap string Z :=
  dict_of (map (λ m, (Re.group 1 m, int (Re.group 2 m))) ms).

(** [d.get(k, dflt)]. *)
Definition get {V : Type} (d : gmap string V) (k : string) (dflt : V) : V :=
  default dflt (d !! k).

(** One medal record; [rank = None] is Python's [None] (or the key not
    set yet). *)
Record entry := {
  rank : option Z;
  code : string;
  country : string;
  gold : Z;
  silver : Z;
  bronze : Z;
  total : Z
}.

Definition set_rank (r : option Z) (e : entry) : entry :=
  {| rank := r; code := code e; country := country e; gold := gold e;
     silver := silver e; bronze := bronze e; total := total e |}.

(** Python's [<] on the key tuples [(int, int, int, str)]: the first
    component that differs decides. *)
Definition key : Type := Z * Z * Z * string.

Definition key_lt (a b : key) : bool :=
  let '(a1, a2, a3, a4) := a in
  let '(b1, b2, b3, b4) := b in
  if negb (a1 =? b1) then a1 <? b1
  else if negb (a2 =? b2) then a2 <? b2
  else if negb (a3 =? b3) then a3 <? b3
  else String.ltb a4 b4.

(** [list.sort(key=f)]: a stable sort that compares keys with [<]. *)
Section Sort.
Variable f : entry -> key.

Fixpoint insert_sorted (x : entry) (l : list entry) : list entry :=
  match l with
  | [] => [x]
  | y :: l' =>
      if key_lt (f y) (f x) then y :: insert_sorted x l'
      else x :: y :: l'
  end.

Definition sort (l : list entry) : list entry :=
  foldr insert_sorted [] l.
End Sort.

(** ** Printed text *)

Module Text.

(** A printed [str], as its code points: the presenters print characters
    beyond 255, which [string] does not hold. *)
Definition t : Type := list N.

Definition of_string (s : string) : t := N_of_ascii <$> list_ascii_of_string s.

(** The decimal digits of [n], most significant first, put before [acc];
    one unit of fuel per digit. *)
Fixpoint digits (fuel : nat) (n : N) (acc : t) : t :=
  match fuel with
  | O => acc
  | S fuel' =>
      let acc' := (48 + n mod 10)%N :: acc in
      if (n / 10 =? 0)%N then acc' else digits fuel' (n / 10) acc'
  end.

(** [n] has at most [1 + log2 n] binary digits, hence no more decimal
    ones ([str_N_value] below). *)
Definition str_N (n : N) : t := digits (S (N.to_nat (N.log2 n))) n [].

(** [str(n)] for an [int]. *)
Definition str (n : Z) : t :=
  if n <? 0 then 45%N :: str_N (Z.abs_N n) else str_N (Z.to_N n).

(** [format(s, '<w')] and [format(s, '>w')], for a [str] or the [str] of
    an [int]: spaces are added up to the width [w], nothing is cut. *)
Definition ljust (w : nat) (s : t) : t := s ++ replicate (w - length s) 32%N.

Definition rjust (w : nat) (s : t) : t := replicate (w - length s) 32%N ++ s.

(** The characters the presenters use. *)
Definition medal : N := 0x1F3C5.
Definition first_place : N := 0x1F947.
Definition second_place : N := 0x1F948.
Definition third_place : N := 0x1F949.
Definition mountain : t := [0x1F3D4; 0xFE0F]%N.

End Text.

(** ** olympic_medals_v2.py *)

Module V2.

Definition IOC_CODES : gmap string string := dict_of
  [("AIN", "Individual Neutral Athletes"); ("ALB", "Albania");
   ("AND", "Andorra"); ("ARG", "Argentina"); ("ARM", "Armenia");
   ("AUS", "Australia"); ("AUT", "Austria"); ("AZE", "Azerbaijan");
   ("BEL", "Belgium"); ("BIH", "Bosnia and Herzegovina");
   ("BLR", "Belarus"); ("BOL", "Bolivia"); ("BRA", "Brazil");
   ("BUL", "Bulgaria"); ("CAN", "Canada"); ("CHI", "Chile");
   ("CHN", "China"); ("COL", "Colombia"); ("CRO", "Croatia");
   ("CYP", "Cyprus"); ("CZE", "Czech Republic"); ("DEN", "Denmark");
   ("ERI", "Eritrea"); ("ESP", "Spain"); ("EST", "Estonia");
   ("FIN", "Finland"); ("FRA", "France"); ("GBR", "Great Britain");
   ("GEO", "Georgia"); ("GER", "Germany"); ("GRE", "Greece");
   ("HUN", "Hungary"); ("ICE", "Iceland"); ("IND", "India");
   ("IRI", "Iran"); ("IRL", "Ireland"); ("ISR", "Israel");
   ("ITA", "Italy"); ("JAM", "Jamaica"); ("JPN", "Japan");
   ("KAZ", "Kazakhstan"); ("KGZ", "Kyrgyzstan"); ("KOR", "South Korea");
   ("KOS", "Kosovo"); ("LAT", "Latvia"); ("LBN", "Lebanon");
   ("LIE", "Liechtenstein"); ("LTU", "Lithuania"); ("LUX", "Luxembourg");
   ("MDA", "Moldova"); ("MEX", "Mexico"); ("MGL", "Mongolia");
   ("MKD", "North Macedonia"); ("MLT", "Malta"); ("MNE", "Montenegro");
   ("MON", "Monaco"); ("NED", "Netherlands"); ("NEP", "Nepal");
   ("NGR", "Nigeria"); ("NOR", "Norway"); ("NZL", "New Zealand");
   ("PAK", "Pakistan"); ("PER", "Peru"); ("PHI", "Philippines");
   ("POL", "Poland"); ("POR", "Portugal"); ("PRK", "North Korea");
   ("PUR", "Puerto Rico"); ("ROU", "Romania"); ("RSA", "South Africa");
   ("RUS", "Russia"); ("SLO", "Slovenia"); ("SMR", "San Marino");
   ("SRB", "Serbia"); ("SUI", "Switzerland"); ("SVK", "Slovakia");
   ("SWE", "Sweden"); ("THA", "Thailand"); ("TPE", "Chinese Taipei");
   ("TUR", "Turkey"); ("UKR", "Ukraine"); ("USA", "United States");
   ("UZB", "Uzbekistan")].

Section Parse.
(** The order in which [for code in all_codes] visits the set. *)
Variable iter : gset string -> list string.

(** The body of [for code in all_codes]. *)
Definition collect (golds silvers bronzes : gmap string Z)
    (results : list entry) (code : string) : list entry :=
  let g := get golds code 0 in
  let s := get silvers code 0 in
  let b := get bronzes code 0 in
  let total := g + s + b in
  if total =? 0 then results
  else
    let country_name := get IOC_CODES code code in
    results ++ [ {| rank := None; code := code; country := country_name;
                    gold := g; silver := s; bronze := b;
                    total := total |} ].

Definition sort_key (x : entry) : key :=
  (- gold x, - silver x, - bronze x, code x).

(** The body of [for i, entry in enumerate(results)]; [results] is
    updated in place, so [prev] carries the rank given one step before.
    The loop only visits indices of the list, so both lookups succeed. *)
Definition rank_step (results : list entry) (i : nat) : list entry :=
  match results !! i with
  | None => results
  | Some entry =>
      if (i =? 0)%nat then <[i := set_rank (Some 1) entry]> results
      else
        match results !! (i - 1)%nat with
        | None => results
        | Some prev =>
            if (gold entry =? gold prev) && (silver entry =? silver prev)
               && (bronze entry =? bronze prev)
            then <[i := set_rank (rank prev) entry]> results
            else <[i := set_rank (Some (Z.of_nat i + 1)) entry]> results
        end
  end.

Definition assign_ranks (results : list entry) : list entry :=
  foldl rank_step results (seq 0 (length results)).

Definition parse_medals (wikitext : string) : list entry :=
  let clean := strip_comments wikitext in
  let golds := medal_dict (Re.finditer gold_pattern clean) in
  let silvers := medal_dict (Re.finditer silver_pattern clean) in
  let bronzes := medal_dict (Re.finditer bronze_pattern clean) in
  let all_codes : gset string := dom golds ∪ dom silvers ∪ dom bronzes in
  let results := foldl (collect golds silvers bronzes) [] (iter all_codes) in
  let results := sort sort_key results in
  assign_ranks results.
End Parse.

End V2.

(** ** The report driver of olympic_medals_v2.py *)

Module Report.

(** What the program prints. The padding of the table, the JSON text and
    the one-line text are not modelled: a printed value records which
    presenter ran, on which entries. *)
Inductive stream := Stdout | Stderr.

Inductive text :=
| ErrorFetching (e : string)
| NoDataOneline
| NoDataFound
| OnelineText (show : list entry)
| JsonText (medals : list entry)
| TableText (medals : list entry).

(** A run prints, and either returns a value or ends in [sys.exit(n)]. *)
Definition M (A : Type) : Type := list (stream * text) * (A + Z).

#[local] Instance M_ret : MRet M := fun A a => ([], inl a).

#[local] Instance M_bind : MBind M := fun A B f m =>
  match m with
  | (out, inl a) => let '(out', r) := f a in (out ++ out', r)
  | (out, inr n) => (out, inr n)
  end.

Definition print (to : stream) (t : text) : M unit := ([(to, t)], inl tt).

Definition sys_exit {A} (n : Z) : M A := ([], inr n).

(** The parsed command line: what [parser.parse_args()] returns for a
    command line it accepts ([top] and [arg_country] are [None] when the
    option is absent). *)
Record args := {
  json : bool;
  top : option Z;
  arg_country : option string;
  oneline : bool
}.

(** [l[:n]]: a negative [n] counts from the end. *)
Definition slice_to {A} (n : Z) (l : list A) : list A :=
  if n <? 0 then take (Z.to_nat (Z.of_nat (length l) + n)) l
  else take (Z.to_nat n) l.

(** [fetch_wikitext]: the request either raises, with message [e], or
    gives the wikitext. *)
Definition fetch_wikitext (response : string + string) : M string :=
  match response with
  | inr wikitext => mret wikitext
  | inl e => print Stderr (ErrorFetching e) ;; sys_exit 1
  end.

Definition format_pretty (medals : list entry) : M unit :=
  match medals with
  | [] => print Stdout NoDataFound
  | _ => print Stdout (TableText medals)
  end.

(** Lines 190 to 195: [if args.country: ...]. *)
Definition filter_country (a : args) (medals : list entry) : list entry :=
  match arg_country a with
  | Some (String c q) =>
      let query := lower (String c q) in
      List.filter
        (fun m => contains query (lower (country m))
                  || contains query (lower (code m)))
        medals
  | _ => medals
  end.

(** Lines 198 and 199: [if args.top: ...]. *)
Definition limit_top (a : args) (medals : list entry) : list entry :=
  match top a with
  | Some n => if n =? 0 then medals else slice_to n medals
  | None => medals
  end.

Definition truthy (q : option string) : bool :=
  match q with
  | Some (String _ _) => true
  | _ => false
  end.

Section Main.
Variable iter : gset string -> list string.

Definition main (a : args) (response : string + string) : M unit :=
  wikitext ← fetch_wikitext response;
  let medals := V2.parse_medals iter wikitext in
  match medals with
  | [] =>
      (if oneline a then print Stdout NoDataOneline
       else print Stderr NoDataFound) ;;
      sys_exit 1
  | _ =>
      let medals := filter_country a medals in
      let medals := limit_top a medals in
      if oneline a then
        let show :=
          if negb (truthy (arg_country a)) then slice_to 3 medals
          else medals in
        print Stdout (OnelineText show)
      else if json a then print Stdout (JsonText medals)
      else format_pretty medals
  end.

(** The status the process ends with: that of [sys.exit], or 0 when
    [main] returns. *)
Definition exit_status (r : M unit) : Z :=
  match snd r with
  | inl _ => 0
  | inr n => n
  end.

Definition printed (r : M unit) : list (stream * text) := fst r.
End Main.

(** [format_pretty], as the strings it hands to [print] in turn. [None]
    stands for the [TypeError] that formatting a rank [None] with [:<4]
    raises. *)
Definition table_header : Text.t :=
  [10%N] ++ Text.of_string "  " ++ Text.ljust 4 (Text.of_string "#")
  ++ Text.of_string " " ++ Text.ljust 25 (Text.of_string "Country")
  ++ Text.of_string " " ++ Text.ljust 5 (Text.of_string "Code")
  ++ Text.of_string " " ++ Text.rjust 4 [Text.first_place]
  ++ Text.of_string " " ++ Text.rjust 4 [Text.second_place]
  ++ Text.of_string " " ++ Text.rjust 4 [Text.third_place]
  ++ Text.of_string " " ++ Text.rjust 5 (Text.of_string "Tot").


Definition table_row (m : entry) : option Text.t :=
  r ← rank m;
  Some (Text.of_string "  " ++ Text.ljust 4 (Text.str r)
        ++ Text.of_string " " ++ Text.ljust 25 (Text.of_string (country m))
        ++ Text.of_string " " ++ Text.ljust 5 (Text.of_string (code m))
        ++ Text.of_string " " ++ Text.rjust 4 (Text.str (gold m))
        ++ Text.of_string " " ++ Text.rjust 4 (Text.str (silver m))
        ++ Text.of_string " " ++ Text.rjust 4 (Text.str (bronze m))
        ++ Text.of_string " " ++ Text.rjust 5 (Text.str (total m))).

(** [sum(m[field] for m in medals)]. *)
Definition sum_of (field : entry -> Z) (medals : list entry) : Z :=
  foldr Z.add 0 (field <$> medals).



End Report.

(** ** olympics.1r.10m+.py *)

Module Widget.

Definition IOC_CODES : gmap string string := dict_of
  [("AIN", "Neutral Athletes"); ("ALB", "Albania"); ("AND", "Andorra");
   ("ARG", "Argentina"); ("ARM", "Armenia"); ("AUS", "Australia");
   ("AUT", "Austria"); ("AZE", "Azerbaijan"); ("BEL", "Belgium");
   ("BIH", "Bosnia & Herzegovina"); ("BLR", "Belarus");
   ("BOL", "Bolivia"); ("BRA", "Brazil"); ("BUL", "Bulgaria");
   ("CAN", "Canada"); ("CHI", "Chile"); ("CHN", "China");
   ("COL", "Colombia"); ("CRO", "Croatia"); ("CYP", "Cyprus");
   ("CZE", "Czech Republic"); ("DEN", "Denmark"); ("ERI", "Eritrea");
   ("ESP", "Spain"); ("EST", "Estonia"); ("FIN", "Finland");
   ("FRA", "France"); ("GBR", "Great Britain"); ("GEO", "Georgia");
   ("GER", "Germany"); ("GRE", "Greece"); ("HUN", "Hungary");
   ("ICE", "Iceland"); ("IND", "India"); ("IRI", "Iran");
   ("IRL", "Ireland"); ("ISR", "Israel"); ("ITA", "Italy");
   ("JAM", "Jamaica"); ("JPN", "Japan"); ("KAZ", "Kazakhstan");
   ("KGZ", "Kyrgyzstan"); ("KOR", "South Korea"); ("KOS", "Kosovo");
   ("LAT", "Latvia"); ("LBN", "Lebanon"); ("LIE", "Liechtenstein");
   ("LTU", "Lithuania"); ("LUX", "Luxembourg"); ("MDA", "Moldova");
   ("MEX", "Mexico"); ("MGL", "Mongolia"); ("MKD", "North Macedonia");
   ("MLT", "Malta"); ("MNE", "Montenegro"); ("MON", "Monaco");
   ("NED", "Netherlands"); ("NEP", "Nepal"); ("NGR", "Nigeria");
   ("NOR", "Norway"); ("NZL", "New Zealand"); ("PAK", "Pakistan");
   ("PER", "Peru"); ("PHI", "Philippines"); ("POL", "Poland");
   ("POR", "Portugal"); ("PRK", "North Korea"); ("PUR", "Puerto Rico");
   ("ROU", "Romania"); ("RSA", "South Africa"); ("RUS", "Russia");
   ("SLO", "Slovenia"); ("SMR", "San Marino"); ("SRB", "Serbia");
   ("SUI", "Switzerland"); ("SVK", "Slovakia"); ("SWE", "Sweden");
   ("THA", "Thailand"); ("TPE", "Chinese Taipei"); ("TUR", "Turkey");
   ("UKR", "Ukraine"); ("USA", "United States"); ("UZB", "Uzbekistan")].

Section Parse.
Variable iter : gset string -> list string.

Definition collect (golds silvers bronzes : gmap string Z)
    (results : list entry) (code : string) : list entry :=
  let g := get golds code 0 in
  let s := get silvers code 0 in
  let b := get bronzes code 0 in
  let total := g + s + b in
  if total =? 0 then results
  else
    results ++ [ {| rank := None; code := code;
                    country := get IOC_CODES code code;
                    gold := g; silver := s; bronze := b;
                    total := total |} ].

Definition sort_key (x : entry) : key :=
  (- gold x, - silver x, - bronze x, code x).

Definition rank_step (results : list entry) (i : nat) : list entry :=
  match results !! i with
  | None => results
  | Some entry =>
      if (i =? 0)%nat then <[i := set_rank (Some 1) entry]> results
      else
        match results !! (i - 1)%nat with
        | None => results
        | Some prev =>
            if (gold entry =? gold prev) && (silver entry =? silver prev)
               && (bronze entry =? bronze prev)
            then <[i := set_rank (rank prev) entry]> results
            else <[i := set_rank (Some (Z.of_nat i + 1)) entry]> results
        end
  end.

(** Lines 74 to 113 of [fetch_medals]: what it does with the wikitext
    once the request has succeeded. *)
Definition parse (wikitext : string) : list entry :=
  let clean := strip_comments wikitext in
  let golds := medal_dict (Re.finditer (medal_pattern "gold_") clean) in
  let silvers := medal_dict (Re.finditer (medal_pattern "silver_") clean) in
  let bronzes := medal_dict (Re.finditer (medal_pattern "bronze_") clean) in
  let all_codes : gset string := dom golds ∪ dom silvers ∪ dom bronzes in
  let results := foldl (collect golds silvers bronzes) [] (iter all_codes) in
  let results := sort sort_key results in
  foldl rank_step results (seq 0 (length results)).

(** [fetch_medals]: [None] when the request fails. *)
Definition fetch_medals (response : option string) : option (list entry) :=
  match response with
  | None => None
  | Some wikitext => Some (parse wikitext)
  end.
End Parse.

(** The code to highlight. *)
Definition MY_COUNTRY : string := "USA".

Fixpoint find_country (medals : list entry) (code' : string) : option entry :=
  match medals with
  | [] => None
  | m :: medals' =>
      if String.eqb (code m) code' then Some m
      else find_country medals' code'
  end.

(** The f-string of the top bar, for [MY_COUNTRY] and [mine] or for the
    leader's code and [leader]. *)
Definition tally (label : string) (m : entry) : Text.t :=
  [Text.medal] ++ Text.of_string " " ++ Text.of_string label
  ++ Text.of_string " " ++ Text.str (gold m) ++ [Text.first_place]
  ++ Text.of_string " " ++ Text.str (silver m) ++ [Text.second_place]
  ++ Text.of_string " " ++ Text.str (bronze m) ++ [Text.third_place].

Definition row_attributes : Text.t :=
  Text.of_string " | font=monospace size=11".

Definition highlight : Text.t := Text.of_string " color=#3584e4".

(** One turn of [for m in medals]; [None] stands for the [KeyError] of an
    entry without a rank. *)
Definition entry_line (m : entry) : option Text.t :=
  r ← rank m;
  let color :=
    if String.eqb (code m) MY_COUNTRY then highlight else [] in
  let line :=
    Text.ljust 3 (Text.str r) ++ Text.of_string "  "
    ++ Text.ljust 20 (Text.of_string (country m))
    ++ Text.of_string " " ++ Text.rjust 3 (Text.str (gold m))
    ++ Text.of_string " " ++ Text.rjust 3 (Text.str (silver m))
    ++ Text.of_string " " ++ Text.rjust 3 (Text.str (bronze m))
    ++ Text.of_string " " ++ Text.rjust 4 (Text.str (total m)) in
  Some (line ++ row_attributes ++ color).

Definition rule : Text.t := Text.of_string "---".

Definition failure_lines : list Text.t :=
  [ [Text.medal] ++ Text.of_string " ??? | refresh=true";
    rule;
    Text.of_string "Failed to fetch medal data | color=#ff0000";
    Text.of_string "Click to retry | refresh=true" ].

Definition title_line : Text.t :=
  Text.mountain
  ++ Text.of_string "  Milano Cortina 2026 | href=https://www.olympics.com/en/milano-cortina-2026/medals size=12".

Definition column_headers : Text.t :=
  Text.ljust 3 (Text.of_string "#") ++ Text.of_string "  "
  ++ Text.ljust 20 (Text.of_string "Country")
  ++ Text.of_string " " ++ Text.rjust 3 [Text.first_place]
  ++ Text.of_string " " ++ Text.rjust 3 [Text.second_place]
  ++ Text.of_string " " ++ Text.rjust 3 [Text.third_place]
  ++ Text.of_string " " ++ Text.rjust 4 (Text.of_string "Tot")
  ++ row_attributes.

Definition totals_line (medals : list entry) : Text.t :=
  let total_g := Report.sum_of gold medals in
  let total_s := Report.sum_of silver medals in
  let total_b := Report.sum_of bronze medals in
  let total_t := Report.sum_of total medals in
  Text.ljust 3 [] ++ Text.of_string "  "
  ++ Text.ljust 20 (Text.of_string "Total")
  ++ Text.of_string " " ++ Text.rjust 3 (Text.str total_g)
  ++ Text.of_string " " ++ Text.rjust 3 (Text.str total_s)
  ++ Text.of_string " " ++ Text.rjust 3 (Text.str total_b)
  ++ Text.of_string " " ++ Text.rjust 4 (Text.str total_t)
  ++ row_attributes.

Definition footer : list Text.t :=
  [ rule;
    Text.of_string "Open Medal Table | href=https://www.olympics.com/en/milano-cortina-2026/medals";
    Text.of_string "Open Wikipedia | href=https://en.wikipedia.org/wiki/2026_Winter_Olympics_medal_table";
    Text.of_string "Refresh | refresh=true" ].

Section Main.
Variable iter : gset string -> list string.

(** [main], as the strings it hands to [print] in turn; [None] when a
    step raises. *)
Definition main (response : option string) : option (list Text.t) :=
  match fetch_medals iter response with
  | None | Some [] => Some failure_lines
  | Some ((leader :: _) as medals) =>
      let mine := find_country medals MY_COUNTRY in
      let top_text :=
        match mine with
        | Some mine' =>
            if total mine' >? 0 then tally MY_COUNTRY mine'
            else tally (code leader) leader
        | None => tally (code leader) leader
        end in
      rows ← mapM entry_line medals;
      Some ([top_text ++ Text.of_string " | refresh=true";
             rule; title_line; rule; column_headers; rule]
            ++ rows ++ [rule; totals_line medals] ++ footer)
  end.
End Main.

End Widget.

(** * Vocabulary of the properties *)

(** [k] leaves at most what it was given, less [d] characters. *)
Definition shrinks (d : nat) (k : string -> option (list string * string))
  : Prop :=
  forall s caps rest,
    k s = Some (caps, rest) -> (String.length rest + d <= String.length s)%nat.

(** Every character of [s] is in the class [cls]. *)
Fixpoint all_chars (cls : ascii -> bool) (s : string) : bool :=
  match s with
  | EmptyString => true
  | String c s' => cls c && all_chars cls s'
  end.

(** The bindings [kvs] added to [d], one after the other. *)
Definition bind_all {V : Type} (d : gmap string V) (kvs : list (string * V))
  : gmap string V :=
  foldl (λ d kv, <[kv.1 := kv.2]> d) d kvs.

(** [key_lt] spelt out. *)
Definition lex_lt (a b : key) : Prop :=
  let '(a1, a2, a3, a4) := a in
  let '(b1, b2, b3, b4) := b in
  a1 < b1 \/ (a1 = b1 /\ (a2 < b2 \/ (a2 = b2 /\ (a3 < b3 \/
    (a3 = b3 /\ String.ltb a4 b4 = true))))).

(** "Not greater": the order a sort by [<] establishes. *)
Definition key_le (a b : key) : Prop := key_lt b a = false.

(** [x] may stand before [y] in a list sorted by the key [f]. *)
Definition le_by (f : entry -> key) (x y : entry) : Prop :=
  key_le (f x) (f y).

(** The (gold, silver, bronze) triple of an entry. *)
Definition medals (e : entry) : Z * Z * Z := (gold e, silver e, bronze e).

(** The test of the ranking loop on [entry] and [prev]. *)
Definition same_medals (a b : entry) : bool :=
  (gold a =? gold b) && (silver a =? silver b) && (bronze a =? bronze b).

(** The loop, read off as a recursion over the entries still to rank:
    [i] is the index of the next entry and [prev] the entry ranked last. *)
Definition next_ranked (i : nat) (prev : option entry) (e : entry) : entry :=
  match prev with
  | None => set_rank (Some 1) e
  | Some p =>
      if same_medals e p then set_rank (rank p) e
      else set_rank (Some (Z.of_nat i + 1)) e
  end.

Fixpoint ranked (i : nat) (prev : option entry) (l : list entry)
  : list entry :=
  match l with
  | [] => []
  | e :: l' =>
      next_ranked i prev e :: ranked (S i) (Some (next_ranked i prev e)) l'
  end.

(** [x] has a strictly better triple than [y]: more gold, or as much gold
    and more silver, or as much of both and more bronze. *)
Definition better (x y : entry) : bool :=
  (gold y <? gold x)
  || ((gold x =? gold y)
      && ((silver y <? silver x)
          || ((silver x =? silver y) && (bronze y <? bronze x)))).

(** How many entries of [l] have a better triple than [e]. *)
Definition count_better (l : list entry) (e : entry) : nat :=
  length (List.filter (fun x => better x e) l).

(** No later entry has a better triple than an earlier one. *)
Definition medals_descending (l : list entry) : Prop :=
  StronglySorted (fun x y => better y x = false) l.

(** The dictionary one pattern family gives for a wikitext. *)
Definition family_dict (prefix wikitext : string) : gmap string Z :=
  medal_dict (Re.finditer (medal_pattern prefix) (strip_comments wikitext)).

(** The set [all_codes] of [parse_medals]. *)
Definition all_codes (wikitext : string) : gset string :=
  dom (family_dict "gold_" wikitext) ∪ dom (family_dict "silver_" wikitext)
  ∪ dom (family_dict "bronze_" wikitext).

(** [g + s + b] for a code, a value missing from a dictionary being 0. *)
Definition medal_sum (wikitext code : string) : Z :=
  get (family_dict "gold_" wikitext) code 0
  + get (family_dict "silver_" wikitext) code 0
  + get (family_dict "bronze_" wikitext) code 0.

(** The record appended for a code, with the names of table [names]. *)
Definition fresh_entry (names : gmap string string) (wikitext c : string)
  : entry :=
  {| rank := None; code := c; country := get names c c;
     gold := get (family_dict "gold_" wikitext) c 0;
     silver := get (family_dict "silver_" wikitext) c 0;
     bronze := get (family_dict "bronze_" wikitext) c 0;
     total := medal_sum wikitext c |}.

(** The list [results] when the loop over [all_codes] ends. *)
Definition collected (names : gmap string string)
    (iter : gset string -> list string) (wikitext : string) : list entry :=
  fresh_entry names wikitext
  <$> filter (fun c => medal_sum wikitext c <> 0) (iter (all_codes wikitext)).

(** The claim as the specification words it: the rank values in use are
    exactly 1, 2, ..., n, where n is the number of distinct triples. *)
Definition dense_ranks (out : list entry) : Prop :=
  forall r : Z,
    Some r ∈ (rank <$> out)
    <-> 1 <= r <= Z.of_nat (length (remove_dups (medals <$> out))).

(** A tie of two behind a leader, and a fourth entry. *)
Definition skipping_wikitext : string :=
  "| gold_AAA = 2 | gold_BBB = 1 | gold_CCC = 1 | silver_DDD = 1".

(** The second half of the claim as the specification words it: two
    entries have the same rank exactly when they have the same triple and
    stand next to each other. *)
Definition ties_are_neighbours (out : list entry) : Prop :=
  forall i j ei ej,
    i <> j -> out !! i = Some ei -> out !! j = Some ej ->
    (rank ei = rank ej
     <-> medals ei = medals ej /\ (j = S i \/ i = S j)).

(** Three entries with the same triple. *)
Definition three_way_tie : string :=
  "| gold_AAA = 1 | gold_BBB = 1 | gold_CCC = 1".

(** What is assumed of the order in which Python iterates over a set:
    every element comes once. *)
Definition set_iteration (iter : gset string -> list string) : Prop :=
  forall X, iter X ≡ₚ elements X.

(** Gold descending, then silver descending, then bronze descending, then
    code ascending. *)
Definition precedes (x y : entry) : Prop :=
  gold x > gold y
  \/ (gold x = gold y
      /\ (silver x > silver y
          \/ (silver x = silver y
              /\ (bronze x > bronze y
                  \/ (bronze x = bronze y
                      /\ String.ltb (code x) (code y) = true))))).

(** The scenario of the specification: two entries with the same triple,
    USA first in the text. *)
Definition shuffled_wikitext : string :=
  "| gold_USA = 5 | silver_USA = 2 | bronze_USA = 1 | gold_NOR = 5 | silver_NOR = 2 | bronze_NOR = 1".

(** Two gold matches for one code. *)
Definition repeated_wikitext : string :=
  "| gold_NOR = 1 | gold_SWE = 2 | gold_NOR = 5".

(** The codes that a medal assignment of [s] is about. *)
Definition mentioned (s : string) : list string :=
  Re.group 1
  <$> (Re.finditer gold_pattern s ++ Re.finditer silver_pattern s
       ++ Re.finditer bronze_pattern s).

(** The claim as the specification words it, for a wikitext with a
    comment between [pre] and [post]: a code no assignment of [pre] or of
    [post] is about is not in the result. The first hypothesis says that
    no opening marker starts within [pre] (not even one that ends in the
    first characters of the comment's own marker), the second that no
    closing marker starts within [body]: the comment is the span from
    the end of [pre] to the start of [post]. *)
Definition comment_only_codes_absent : Prop :=
  forall pre body post c,
    contains "<!--" (pre +:+ "<!-") = false ->
    contains "-->" (body +:+ "--") = false ->
    c ∉ mentioned pre -> c ∉ mentioned post ->
    c ∉ code <$> V2.parse_medals elements
                   (pre +:+ "<!--" +:+ body +:+ "-->" +:+ post).






(** The fields the two programs are compared on. *)
Definition core (e : entry) : string * Z * Z * Z * Z * option Z :=
  (code e, gold e, silver e, bronze e, total e, rank e).

(** An entry with its display name looked up in [names]. *)
Definition with_names (names : gmap string string) (e : entry) : entry :=
  {| rank := rank e; code := code e;
     country := get names (code e) (code e);
     gold := gold e; silver := silver e; bronze := bronze e;
     total := total e |}.

(** A wikitext with a code the two tables name differently. *)
Definition neutral_wikitext : string :=
  "| gold_AIN = 1 | silver_AIN = 0 | bronze_AIN = 2 | gold_FRA = 1 | bronze_FRA = 3".

(** The entries a printed value was made from. *)
Definition entries_of (t : Report.text) : list entry :=
  match t with
  | Report.OnelineText l | Report.JsonText l | Report.TableText l => l
  | _ => []
  end.

(** The code point of a decimal digit. *)
Definition is_digit_code (c : N) : Prop := (48 <= c <= 57)%N.

(** [k] gives back an end of the text it was given. *)
Definition leaves_suffix (k : string -> option (list string * string))
  : Prop :=
  forall s caps rest, k s = Some (caps, rest) -> exists pre, s = pre +:+ rest.

(** * Properties *)

(** ** The matcher consumes text, and the scans have enough fuel *)

Section MatcherFacts.

Lemma star_then_shrinks d k cls :
  shrinks d k -> shrinks d (Re.star_then k cls).
Proof.
  intros Hk s. induction s as [|a s IH]; intros caps rest; simpl.
  - apply Hk.
  - destruct (cls a).
    + destruct (Re.star_then k cls s) as [[c r]|] eqn:E.
      * intros [= -> ->]. specialize (IH _ _ eq_refl). lia.
      * intros H. apply Hk in H. simpl in H. lia.
    + intros H. apply Hk in H. simpl in H. lia.
Qed.

Lemma lazy_then_shrinks d k : shrinks d k -> shrinks d (Re.lazy_then k).
Proof.
  intros Hk s. induction s as [|a s IH]; intros caps rest; simpl.
  - destruct (k EmptyString) as [[c r]|] eqn:E; [|discriminate].
    intros [= -> ->]. apply Hk in E. exact E.
  - destruct (k (String a s)) as [[c r]|] eqn:E.
    + intros [= -> ->]. apply Hk in E. exact E.
    + intros H. apply IH in H. lia.
Qed.

Lemma plus_then_shrinks d k cls s cap caps rest :
  shrinks d k ->
  Re.plus_then k cls s = Some (cap, (caps, rest)) ->
  (String.length rest + d + 1 <= String.length s)%nat.
Proof.
  intros Hk. revert cap caps rest.
  induction s as [|a s IH]; intros cap caps rest; simpl; [discriminate|].
  destruct (cls a); [|discriminate].
  destruct (Re.plus_then k cls s) as [[c [cs r]]|] eqn:E.
  - intros [= <- <- <-]. specialize (IH _ _ _ eq_refl). lia.
  - destruct (k s) as [[cs r]|] eqn:E'; [|discriminate].
    intros [= <- <- <-]. apply Hk in E'. lia.
Qed.

Lemma match_here_shrinks p : shrinks 0 (Re.match_here p).
Proof.
  induction p as [|[c|cls|cls|] p IH]; intros s caps rest; simpl.
  - intros [= <- <-]. lia.
  - destruct s as [|a s]; [discriminate|].
    destruct (Ascii.eqb a c); [|discriminate].
    intros H. apply IH in H. simpl. lia.
  - apply star_then_shrinks, IH.
  - destruct (Re.plus_then (Re.match_here p) cls s) as [[c [cs r]]|] eqn:E;
      [|discriminate].
    intros [= <- <-]. eapply plus_then_shrinks in E; [lia|exact IH].
  - apply lazy_then_shrinks, IH.
Qed.

(** A pattern that starts with a literal matches at least one
    character. *)
Lemma match_here_lit_shrinks c p : shrinks 1 (Re.match_here (Re.Lit c :: p)).
Proof.
  intros s caps rest; simpl.
  destruct s as [|a s]; [discriminate|].
  destruct (Ascii.eqb a c); [|discriminate].
  intros H. apply match_here_shrinks in H. simpl. lia.
Qed.

(** Any fuel from the length of the text on gives the same scan. *)
Lemma scan_fuel_irrelevant p :
  shrinks 1 (Re.match_here p) ->
  forall n m s,
    (String.length s <= n)%nat -> (String.length s <= m)%nat ->
    Re.scan n p s = Re.scan m p s.
Proof.
  intros Hp n. induction n as [|n IH]; intros m s Hn Hm.
  - destruct s; [|simpl in Hn; lia]. destruct m; reflexivity.
  - destruct m as [|m].
    + destruct s; [|simpl in Hm; lia]. reflexivity.
    + destruct s as [|a s]; [reflexivity|]. simpl in Hn, Hm. simpl.
      destruct (Re.match_here p (String a s)) as [[caps rest]|] eqn:E.
      * apply Hp in E. simpl in E. f_equal. apply IH; lia.
      * f_equal. apply IH; lia.
Qed.

Lemma scan_fuel p n s :
  shrinks 1 (Re.match_here p) ->
  (String.length s <= n)%nat ->
  Re.scan n p s = Re.scan (String.length s) p s.
Proof. intros Hp Hn. apply scan_fuel_irrelevant; [exact Hp|lia|lia]. Qed.

Lemma comment_pattern_shrinks : shrinks 1 (Re.match_here comment_pattern).
Proof. apply match_here_lit_shrinks. Qed.

Lemma medal_pattern_shrinks prefix :
  shrinks 1 (Re.match_here (medal_pattern prefix)).
Proof. apply match_here_lit_shrinks. Qed.

(** More fuel than the length of the text changes neither [re.sub] nor
    [re.finditer]. *)
Lemma strip_comments_fuel n s :
  (String.length s <= n)%nat ->
  Re.unmatched (Re.scan n comment_pattern s) = strip_comments s.
Proof.
  intros Hn. unfold strip_comments, Re.sub_empty.
  now rewrite (scan_fuel comment_pattern n s comment_pattern_shrinks Hn).
Qed.

Lemma finditer_fuel prefix n s :
  (String.length s <= n)%nat ->
  Re.matches (Re.scan n (medal_pattern prefix) s)
  = Re.finditer (medal_pattern prefix) s.
Proof.
  intros Hn. unfold Re.finditer.
  now rewrite (scan_fuel _ n s (medal_pattern_shrinks prefix) Hn).
Qed.

End MatcherFacts.

(** ** Removing comments *)

Section CommentFacts.

#[local] Arguments String.append !_ _ / : simpl nomatch.

Lemma length_append (s t : string) :
  String.length (s +:+ t) = (String.length s + String.length t)%nat.
Proof. induction s as [|a s IH]; simpl; [reflexivity|]. now rewrite IH. Qed.

Lemma append_assoc (s t u : string) : (s +:+ t) +:+ u = s +:+ (t +:+ u).
Proof.
  induction s as [|a s IH]; [reflexivity|].
  cbn [String.append]. f_equal. exact IH.
Qed.

Lemma match_lits t p s :
  Re.match_here (Re.lits t ++ p) (t +:+ s) = Re.match_here p s.
Proof.
  induction t as [|a t IH]; simpl; [reflexivity|].
  now rewrite Ascii.eqb_refl.
Qed.

Lemma match_lits_fail t p s :
  String.prefix t s = false -> Re.match_here (Re.lits t ++ p) s = None.
Proof.
  revert s. induction t as [|a t IH]; intros s.
  { destruct s; discriminate. }
  destruct s as [|b s]; [reflexivity|]. simpl.
  destruct (ascii_dec a b) as [->|Hne].
  - rewrite Ascii.eqb_refl. apply IH.
  - intros _. destruct (Ascii.eqb_spec b a); [congruence|reflexivity].
Qed.

(** Whether [t] starts a text depends on its first [length t]
    characters only. *)
Lemma prefix_app_enough t x z :
  (String.length t <= String.length x)%nat ->
  String.prefix t (x +:+ z) = String.prefix t x.
Proof.
  revert x. induction t as [|a t IH]; intros x Hlen.
  - destruct x; [destruct z|]; reflexivity.
  - destruct x as [|b x]; [simpl in Hlen; lia|]. simpl.
    destruct (ascii_dec a b); [|reflexivity].
    apply IH. simpl in Hlen. lia.
Qed.

(** Where no opening marker starts within [pre], the scan passes over
    [pre]. *)
Lemma scan_passes_over pre rest n :
  contains "<!--" (pre +:+ "<!-") = false ->
  Re.unmatched
    (Re.scan (String.length pre + n) comment_pattern
       (pre +:+ "<!--" +:+ rest))
  = pre +:+ Re.unmatched (Re.scan n comment_pattern ("<!--" +:+ rest)).
Proof.
  induction pre as [|a pre IH]; intros Hno; [reflexivity|].
  cbn [String.append String.length Nat.add Re.scan].
  cbn [String.append contains] in Hno.
  destruct (String.prefix "<!--" (String a (pre +:+ "<!-"))) eqn:Hp;
    [discriminate|].
  assert (Hfail : Re.match_here comment_pattern
                    (String a (pre +:+ "<!--" +:+ rest)) = None).
  { apply (match_lits_fail "<!--"). etransitivity; [|exact Hp].
    change (String a (pre +:+ "<!--" +:+ rest))
      with (String a pre +:+ "<!-" +:+ ("-" +:+ rest)).
    rewrite <- append_assoc.
    apply prefix_app_enough. cbn [String.length].
    rewrite length_append. simpl. lia. }
  cbn [String.append] in Hfail. rewrite Hfail.
  cbn [Re.unmatched]. f_equal. exact (IH Hno).
Qed.

(** Where no closing marker starts within [body], the lazy [.*?] stops
    at the marker that follows [body]. *)
Lemma lazy_stops_at_close body post :
  contains "-->" (body +:+ "--") = false ->
  Re.lazy_then (Re.match_here (Re.lits "-->")) (body +:+ "-->" +:+ post)
  = Some ([], post).
Proof.
  induction body as [|a body IH]; intros Hno.
  - cbn [String.append]. unfold Re.lazy_then.
    destruct post; reflexivity.
  - cbn [String.append contains] in Hno.
    destruct (String.prefix "-->" (String a (body +:+ "--"))) eqn:Hp;
      [discriminate|].
    assert (Hfail : Re.match_here (Re.lits "-->")
                      (String a (body +:+ "-->" +:+ post)) = None).
    { rewrite <- (app_nil_r (Re.lits "-->")).
      apply match_lits_fail. etransitivity; [|exact Hp].
      change (String a (body +:+ "-->" +:+ post))
        with (String a body +:+ "--" +:+ (">" +:+ post)).
      rewrite <- append_assoc.
      apply prefix_app_enough. cbn [String.length].
      rewrite length_append. simpl. lia. }
    cbn [String.append] in Hfail. cbn [String.append Re.lazy_then].
    rewrite Hfail. exact (IH Hno).
Qed.

(** One comment, from its opening marker to the first closing marker
    after it, is removed, and the text on its two sides is joined. *)
Lemma strip_comments_one pre body post :
  contains "<!--" (pre +:+ "<!-") = false ->
  contains "-->" (body +:+ "--") = false ->
  strip_comments (pre +:+ "<!--" +:+ body +:+ "-->" +:+ post)
  = pre +:+ strip_comments post.
Proof.
  intros Hpre Hbody. unfold strip_comments, Re.sub_empty.
  rewrite length_append.
  rewrite scan_passes_over by exact Hpre. f_equal.
  assert (Hm : Re.match_here comment_pattern
                 ("<!--" +:+ body +:+ "-->" +:+ post) = Some ([], post)).
  { change comment_pattern
      with (Re.lits "<!--" ++ Re.LazyAny :: Re.lits "-->").
    rewrite match_lits. cbn [Re.match_here].
    now apply lazy_stops_at_close. }
  remember ("<!--" +:+ body +:+ "-->" +:+ post) as s eqn:Hs.
  destruct (String.length s) as [|n] eqn:Hn; [subst s; discriminate|].
  destruct s as [|a s]; [discriminate|].
  cbn [Re.scan]. rewrite Hm. cbn [Re.unmatched].
  f_equal. apply scan_fuel; [apply comment_pattern_shrinks|].
  apply comment_pattern_shrinks in Hm.
  simpl in Hn. simpl in Hm. lia.
Qed.

End CommentFacts.

(** ** What a medal pattern captures *)

Section CaptureFacts.

Lemma star_then_inv {A} (k : string -> option A) cls s r :
  Re.star_then k cls s = Some r -> exists s', k s' = Some r.
Proof.
  induction s as [|a s IH]; simpl; [eauto|].
  destruct (cls a); [|eauto].
  destruct (Re.star_then k cls s) as [r'|]; [|eauto].
  intros [= ->]. now apply IH.
Qed.

Lemma plus_then_inv {A} (k : string -> option A) cls s cap r :
  Re.plus_then k cls s = Some (cap, r) ->
  all_chars cls cap = true /\ cap <> EmptyString
  /\ exists s', k s' = Some r.
Proof.
  revert cap. induction s as [|a s IH]; intros cap; simpl; [discriminate|].
  destruct (cls a) eqn:Ha; [|discriminate].
  destruct (Re.plus_then k cls s) as [[c r']|].
  - intros [= <- <-]. destruct (IH _ eq_refl) as (Hc & _ & Hk).
    simpl. rewrite Ha, Hc. repeat split; [discriminate|exact Hk].
  - destruct (k s) as [r'|] eqn:Hk; [|discriminate].
    intros [= <- <-]. simpl. rewrite Ha. repeat split; [discriminate|eauto].
Qed.

Lemma match_lits_inv t p s r :
  Re.match_here (Re.lits t ++ p) s = Some r ->
  exists s', Re.match_here p s' = Some r.
Proof.
  revert s. induction t as [|a t IH]; intros s; simpl; [eauto|].
  destruct s as [|b s]; [discriminate|].
  destruct (Ascii.eqb b a); [apply IH|discriminate].
Qed.

(** A match of a medal pattern has two groups: a non-empty word and a
    non-empty run of digits. *)
Lemma medal_match_groups prefix s caps rest :
  Re.match_here (medal_pattern prefix) s = Some (caps, rest) ->
  exists c d,
    caps = [c; d] /\ all_chars is_word c = true /\ c <> EmptyString
    /\ all_chars is_digit d = true /\ d <> EmptyString.
Proof.
  unfold medal_pattern. cbn [app Re.match_here].
  destruct s as [|a s]; [discriminate|].
  destruct (Ascii.eqb a "|"); [|discriminate].
  intros H. apply star_then_inv in H as [s1 H].
  apply match_lits_inv in H as [s2 H]. cbn [Re.match_here] in H.
  destruct (Re.plus_then _ is_word s2) as [[c [cs r]]|] eqn:Hw;
    [|discriminate].
  injection H as <- <-.
  apply plus_then_inv in Hw as (Hc & Hc0 & s3 & H).
  apply star_then_inv in H as [s4 H].
  destruct s4 as [|b s4]; [discriminate|].
  destruct (Ascii.eqb b "="); [|discriminate].
  apply star_then_inv in H as [s5 H].
  destruct (Re.plus_then _ is_digit s5) as [[d [ds r']]|] eqn:Hd;
    [|discriminate].
  injection H as <- <-.
  apply plus_then_inv in Hd as (Hd & Hd0 & s6 & H).
  injection H as <- <-. eauto 10.
Qed.

Lemma scan_matches_from p n s m :
  In m (Re.matches (Re.scan n p s)) ->
  exists s' rest, Re.match_here p s' = Some (m, rest).
Proof.
  revert s. induction n as [|n IH]; intros s; simpl; [tauto|].
  destruct s as [|a s]; [simpl; tauto|].
  destruct (Re.match_here p (String a s)) as [[g rest]|] eqn:E; simpl.
  - intros [<-|H]; [eauto|]. now apply IH in H.
  - apply IH.
Qed.

Lemma finditer_medal_groups prefix s m :
  In m (Re.finditer (medal_pattern prefix) s) ->
  exists c d,
    m = [c; d] /\ all_chars is_word c = true /\ c <> EmptyString
    /\ all_chars is_digit d = true /\ d <> EmptyString.
Proof.
  intros H. apply scan_matches_from in H as (s' & rest & H).
  now apply medal_match_groups in H.
Qed.

Lemma digit_value_nonneg c : is_digit c = true -> 0 <= digit_value c <= 9.
Proof.
  unfold is_digit, in_range, digit_value.
  rewrite andb_true_iff, !N.leb_le. lia.
Qed.

Lemma int_acc_nonneg d acc :
  all_chars is_digit d = true -> 0 <= acc -> 0 <= int_acc acc d.
Proof.
  revert acc. induction d as [|c d IH]; intros acc; simpl; [auto|].
  rewrite andb_true_iff. intros [Hc Hd] Hacc.
  apply IH; [exact Hd|]. apply digit_value_nonneg in Hc. lia.
Qed.

Lemma int_nonneg d : all_chars is_digit d = true -> 0 <= int d.
Proof. intros H. apply int_acc_nonneg; [exact H|lia]. Qed.

End CaptureFacts.

(** ** Dictionaries built from matches *)

Section DictFacts.
Context {V : Type}.
Implicit Types (kvs : list (string * V)) (d : gmap string V).



Lemma bind_all_lookup d kvs k v :
  bind_all d kvs !! k = Some v -> (k, v) ∈ kvs ∨ d !! k = Some v.
Proof.
  revert d. induction kvs as [|[k' v'] kvs IH]; intros d; [auto|].
  unfold bind_all in *. simpl. intros H. apply IH in H as [H|H].
  - left. now right.
  - destruct (decide (k' = k)) as [->|Hne].
    + rewrite lookup_insert_eq in H. injection H as ->. left. now left.
    + rewrite lookup_insert_ne in H by exact Hne. now right.
Qed.

Lemma dict_of_lookup kvs k v : dict_of kvs !! k = Some v -> (k, v) ∈ kvs.
Proof.
  intros H. apply (bind_all_lookup ∅) in H as [H|H]; [exact H|].
  now rewrite lookup_empty in H.
Qed.

End DictFacts.

(** ** The order on sort keys *)

Section KeyOrder.

Lemma string_compare_refl s : String.compare s s = Eq.
Proof.
  induction s as [|a s IH]; simpl; [reflexivity|].
  unfold Ascii.compare. now rewrite N.compare_refl.
Qed.

Lemma string_ltb_irrefl s : String.ltb s s = false.
Proof. unfold String.ltb. now rewrite string_compare_refl. Qed.

Lemma string_ltb_leb s t :
  String.ltb s t = true <-> String.leb s t = true /\ s <> t.
Proof.
  unfold String.ltb, String.leb.
  destruct (String.compare s t) eqn:E.
  - apply String.compare_eq_iff in E. subst. split; [discriminate|].
    intros [_ H]. congruence.
  - split; [|reflexivity]. intros _. split; [reflexivity|].
    intros ->. rewrite string_compare_refl in E. discriminate.
  - split; [discriminate|]. intros [H _]. discriminate.
Qed.

Lemma string_ltb_trans s t u :
  String.ltb s t = true -> String.ltb t u = true -> String.ltb s u = true.
Proof.
  rewrite !string_ltb_leb. intros [Hst Hne] [Htu Hne'].
  assert (Hsu : String.le s u).
  { transitivity t; unfold String.le; [now rewrite Hst|now rewrite Htu]. }
  split.
  - unfold String.le in Hsu. now destruct (String.leb s u).
  - intros ->. apply Hne. now apply String.leb_antisym.
Qed.

Lemma string_ltb_total s t :
  String.ltb s t = false -> String.ltb t s = false -> s = t.
Proof.
  unfold String.ltb. rewrite (String.compare_antisym t s).
  destruct (String.compare s t) eqn:E; simpl; try discriminate.
  intros _ _. now apply String.compare_eq_iff.
Qed.

Lemma key_lt_spec a b : key_lt a b = true <-> lex_lt a b.
Proof.
  destruct a as [[[a1 a2] a3] a4], b as [[[b1 b2] b3] b4].
  unfold key_lt, lex_lt.
  destruct (Z.eqb_spec a1 b1), (Z.eqb_spec a2 b2), (Z.eqb_spec a3 b3);
    simpl; rewrite ?Z.ltb_lt; intuition lia.
Qed.

Lemma key_lt_irrefl a : key_lt a a = false.
Proof.
  destruct (key_lt a a) eqn:E; [|reflexivity].
  apply key_lt_spec in E. destruct a as [[[a1 a2] a3] a4]. simpl in E.
  rewrite string_ltb_irrefl in E. intuition (lia || discriminate).
Qed.

Lemma key_lt_trans a b c :
  key_lt a b = true -> key_lt b c = true -> key_lt a c = true.
Proof.
  rewrite !key_lt_spec.
  destruct a as [[[a1 a2] a3] a4], b as [[[b1 b2] b3] b4],
    c as [[[c1 c2] c3] c4]. simpl.
  pose proof (string_ltb_trans a4 b4 c4). intuition lia.
Qed.

Lemma key_lt_total a b :
  key_lt a b = false -> key_lt b a = false -> a = b.
Proof.
  intros Hab Hba.
  assert (H1 : ~ lex_lt a b) by (rewrite <- key_lt_spec; congruence).
  assert (H2 : ~ lex_lt b a) by (rewrite <- key_lt_spec; congruence).
  destruct a as [[[a1 a2] a3] a4], b as [[[b1 b2] b3] b4]. simpl in *.
  assert (a1 = b1) by lia. assert (a2 = b2) by lia.
  assert (a3 = b3) by lia. subst.
  assert (a4 = b4); [|congruence].
  apply string_ltb_total.
  - destruct (String.ltb a4 b4); [|reflexivity]. exfalso. apply H1. tauto.
  - destruct (String.ltb b4 a4); [|reflexivity]. exfalso. apply H2. tauto.
Qed.

Lemma key_lt_asym a b : key_lt a b = true -> key_lt b a = false.
Proof.
  intros Hab. destruct (key_lt b a) eqn:Hba; [|reflexivity].
  pose proof (key_lt_trans _ _ _ Hab Hba) as H.
  now rewrite key_lt_irrefl in H.
Qed.

Lemma key_le_trans a b c : key_le a b -> key_le b c -> key_le a c.
Proof.
  unfold key_le. intros Hab Hbc.
  destruct (key_lt c a) eqn:Hca; [|reflexivity].
  destruct (key_lt a b) eqn:Hab'.
  - pose proof (key_lt_trans _ _ _ Hca Hab'). congruence.
  - assert (a = b) by now apply key_lt_total. subst. congruence.
Qed.

Lemma key_le_lt a b : key_le a b -> a <> b -> key_lt a b = true.
Proof.
  unfold key_le. intros Hba Hne.
  destruct (key_lt a b) eqn:Hab; [reflexivity|].
  exfalso. apply Hne. now apply key_lt_total.
Qed.

End KeyOrder.

(** ** The sort *)

Section SortFacts.
Variable f : entry -> key.

#[local] Instance le_by_trans : Transitive (le_by f).
Proof. intros x y z. apply key_le_trans. Qed.

Lemma insert_sorted_perm x l : insert_sorted f x l ≡ₚ x :: l.
Proof.
  induction l as [|y l IH]; simpl; [reflexivity|].
  destruct (key_lt (f y) (f x)); [|reflexivity].
  rewrite IH. apply perm_swap.
Qed.

Lemma sort_perm l : sort f l ≡ₚ l.
Proof.
  induction l as [|x l IH]; simpl; [reflexivity|].
  rewrite insert_sorted_perm. now rewrite IH.
Qed.

Lemma insert_sorted_sorted x l :
  StronglySorted (le_by f) l -> StronglySorted (le_by f) (insert_sorted f x l).
Proof.
  induction 1 as [|y l Hl IH Hy]; simpl.
  - repeat constructor.
  - destruct (key_lt (f y) (f x)) eqn:E.
    + constructor; [exact IH|].
      rewrite Forall_forall. intros z Hz.
      rewrite insert_sorted_perm in Hz.
      apply elem_of_cons in Hz as [->|Hz].
      * unfold le_by, key_le. now apply key_lt_asym.
      * rewrite Forall_forall in Hy. now apply Hy.
    + constructor; [now constructor|].
      constructor; [exact E|].
      rewrite Forall_forall in *. intros z Hz.
      transitivity y; [exact E|now apply Hy].
Qed.

Lemma sort_sorted l : StronglySorted (le_by f) (sort f l).
Proof.
  induction l as [|x l IH]; simpl; [constructor|].
  now apply insert_sorted_sorted.
Qed.

(** Two sorts of the same entries, in whatever order they come, agree
    when no two of the entries have the same key. *)
Lemma sort_unique l1 l2 :
  l1 ≡ₚ l2 ->
  (forall x y, x ∈ l1 -> y ∈ l1 -> f x = f y -> x = y) ->
  sort f l1 = sort f l2.
Proof.
  intros Hperm Hinj.
  apply (StronglySorted_unique_strong (le_by f));
    [|apply sort_sorted|apply sort_sorted|].
  - intros x y Hx Hy Hxy Hyx.
    rewrite sort_perm in Hx. rewrite sort_perm, <- Hperm in Hy.
    apply Hinj; [exact Hx|exact Hy|].
    apply key_lt_total; [exact Hyx|exact Hxy].
  - now rewrite !sort_perm.
Qed.

End SortFacts.

(** ** The ranking loop *)

Section RankFacts.

Lemma same_medals_spec a b : same_medals a b = true <-> medals a = medals b.
Proof.
  unfold same_medals, medals. rewrite !andb_true_iff, !Z.eqb_eq.
  split; [intros [[-> ->] ->]; reflexivity|]. intros [= -> -> ->]. auto.
Qed.

Lemma medals_set_rank r e : medals (set_rank r e) = medals e.
Proof. reflexivity. Qed.

(** One turn of the loop, at the first entry not yet ranked. *)
Lemma rank_step_at done e todo :
  V2.rank_step (done ++ e :: todo) (length done)
  = done ++ next_ranked (length done) (last done) e :: todo.
Proof.
  unfold V2.rank_step. rewrite list_lookup_middle by reflexivity.
  destruct (last done) as [p|] eqn:Hlast.
  - apply last_Some in Hlast as [done0 ->].
    assert (Hlen : length (done0 ++ [p]) = S (length done0))
      by (rewrite length_app; simpl; lia).
    rewrite Hlen. cbn [Nat.eqb Nat.sub].
    rewrite Nat.sub_0_r.
    assert (Hprev : ((done0 ++ [p]) ++ e :: todo) !! length done0 = Some p).
    { rewrite <- app_assoc. now apply list_lookup_middle. }
    rewrite Hprev. fold (same_medals e p).
    assert (Hins : forall x, <[S (length done0) := x]>
              ((done0 ++ [p]) ++ e :: todo) = (done0 ++ [p]) ++ x :: todo).
    { intros x. rewrite insert_app_r_alt by lia.
      rewrite Hlen, Nat.sub_diag. reflexivity. }
    unfold next_ranked. destruct (same_medals e p); apply Hins.
  - apply last_None in Hlast as ->. reflexivity.
Qed.

(** The loop over the indices of [done ++ todo], started after [done]. *)
Lemma rank_loop todo : forall done,
  foldl V2.rank_step (done ++ todo) (seq (length done) (length todo))
  = done ++ ranked (length done) (last done) todo.
Proof.
  induction todo as [|e todo IH]; intros done; [reflexivity|].
  cbn [length seq foldl]. rewrite rank_step_at.
  set (e' := next_ranked (length done) (last done) e).
  specialize (IH (done ++ [e'])).
  rewrite length_app, last_snoc, <- app_assoc in IH. cbn [length app] in IH.
  replace (length done + 1)%nat with (S (length done)) in IH by lia.
  rewrite IH, <- app_assoc. reflexivity.
Qed.

Lemma assign_ranks_ranked l : V2.assign_ranks l = ranked 0 None l.
Proof. apply (rank_loop l []). Qed.

Lemma next_ranked_fields i prev e :
  next_ranked i prev e = set_rank (rank (next_ranked i prev e)) e.
Proof.
  unfold next_ranked.
  destruct prev as [p|]; [destruct (same_medals e p)|]; reflexivity.
Qed.

Lemma medals_next_ranked i prev e : medals (next_ranked i prev e) = medals e.
Proof. now rewrite next_ranked_fields. Qed.


(** Only the rank of an entry changes. *)
Lemma ranked_lookup i prev l k x :
  ranked i prev l !! k = Some x ->
  exists y, l !! k = Some y /\ x = set_rank (rank x) y.
Proof.
  revert i prev k. induction l as [|e l IH]; intros i prev k;
    [discriminate|].
  destruct k as [|k]; cbn [ranked lookup list_lookup].
  - intros [= <-]. exists e. split; [reflexivity|].
    apply next_ranked_fields.
  - apply IH.
Qed.

Lemma ranked_length i prev l : length (ranked i prev l) = length l.
Proof.
  revert i prev. induction l as [|e l IH]; intros i prev; simpl;
    [reflexivity|]. now rewrite IH.
Qed.

Lemma ranked_fields i prev l :
  set_rank None <$> ranked i prev l = set_rank None <$> l.
Proof.
  revert i prev. induction l as [|e l IH]; intros i prev; [reflexivity|].
  cbn [ranked fmap list_fmap]. f_equal; [|apply IH].
  now rewrite next_ranked_fields.
Qed.


(** A rank is a position already reached. *)
Lemma ranked_bound i prev l k x :
  (forall p, prev = Some p ->
     exists r, rank p = Some r /\ 1 <= r <= Z.of_nat i) ->
  ranked i prev l !! k = Some x ->
  exists r, rank x = Some r /\ 1 <= r <= Z.of_nat (i + k) + 1.
Proof.
  revert i prev k. induction l as [|e l IH]; intros i prev k Hprev;
    [discriminate|].
  cbn [ranked].
  assert (He' : exists r, rank (next_ranked i prev e) = Some r
                          /\ 1 <= r <= Z.of_nat i + 1).
  { unfold next_ranked. destruct prev as [p|].
    - destruct (Hprev p eq_refl) as (r & Hr & Hb).
      destruct (same_medals e p); simpl; [exists r|eexists]; split; eauto;
        lia.
    - exists 1. simpl. split; [reflexivity|lia]. }
  destruct k as [|k]; cbn [lookup list_lookup].
  - intros [= <-]. destruct He' as (r & Hr & Hb). exists r.
    split; [exact Hr|lia].
  - intros H. apply IH in H.
    + destruct H as (r & Hr & Hb). exists r. split; [exact Hr|lia].
    + intros p [= <-]. destruct He' as (r & Hr & Hb). exists r.
      split; [exact Hr|lia].
Qed.

End RankFacts.

(** ** Ranks count the entries with a better medal triple *)

Section CompetitionRank.

Lemma better_spec x y :
  better x y = true <->
  gold y < gold x \/ (gold x = gold y /\ (silver y < silver x \/
    (silver x = silver y /\ bronze y < bronze x))).
Proof.
  unfold better.
  rewrite !orb_true_iff, !andb_true_iff, !orb_true_iff, !andb_true_iff,
    !Z.ltb_lt, !Z.eqb_eq. reflexivity.
Qed.

Lemma better_false x y :
  better x y = false <->
  gold x < gold y \/ (gold x = gold y /\ (silver x < silver y \/
    (silver x = silver y /\ bronze x <= bronze y))).
Proof.
  rewrite <- not_true_iff_false, better_spec. lia.
Qed.

Lemma better_proper x x' y y' :
  medals x = medals x' -> medals y = medals y' ->
  better x y = better x' y'.
Proof.
  unfold medals. intros [= H1 H2 H3] [= H4 H5 H6]. unfold better.
  congruence.
Qed.

Lemma better_irrefl x y : medals x = medals y -> better x y = false.
Proof. unfold medals. intros [= H1 H2 H3]. apply better_false. lia. Qed.

Lemma better_total x y :
  better x y = false -> medals x <> medals y -> better y x = true.
Proof.
  rewrite better_false, better_spec. unfold medals. intros H Hne.
  assert (~ (gold x = gold y /\ silver x = silver y /\ bronze x = bronze y))
    by (intros (H1 & H2 & H3); apply Hne; congruence).
  lia.
Qed.

Lemma better_trans_l x d e :
  better d x = false -> better d e = true -> better x e = true.
Proof. rewrite better_false, !better_spec. lia. Qed.

Lemma count_better_proper l e e' :
  medals e = medals e' -> count_better l e = count_better l e'.
Proof.
  intros H. unfold count_better. f_equal. apply List.filter_ext.
  intros x. now apply better_proper.
Qed.

Lemma count_better_app l1 l2 e :
  count_better (l1 ++ l2) e = (count_better l1 e + count_better l2 e)%nat.
Proof. unfold count_better. now rewrite List.filter_app, length_app. Qed.

Lemma count_better_none l e :
  (forall x, x ∈ l -> better x e = false) -> count_better l e = 0%nat.
Proof.
  unfold count_better. induction l as [|y l IH]; intros H; [reflexivity|].
  simpl. rewrite (H y) by left. apply IH. intros x Hx. apply H. now right.
Qed.

Lemma count_better_all l e :
  (forall x, x ∈ l -> better x e = true) -> count_better l e = length l.
Proof.
  unfold count_better. induction l as [|y l IH]; intros H; [reflexivity|].
  simpl. rewrite (H y) by left. simpl. f_equal. apply IH.
  intros x Hx. apply H. now right.
Qed.

(** Nothing from a descending list's head on is better than the head. *)
Lemma count_better_head e l :
  medals_descending (e :: l) -> count_better (e :: l) e = 0%nat.
Proof.
  intros Hs. apply count_better_none. intros x Hx.
  apply elem_of_cons in Hx as [->|Hx]; [now apply better_irrefl|].
  apply StronglySorted_inv in Hs as [_ Hall].
  rewrite Forall_forall in Hall. now apply Hall.
Qed.

Lemma descending_app_elem l1 l2 x y :
  medals_descending (l1 ++ l2) -> x ∈ l1 -> y ∈ l2 -> better y x = false.
Proof.
  intros Hs.
  apply (StronglySorted_app_1_elem_of
           (fun x y => better y x = false) l1 l2 x y Hs).
Qed.

Lemma ranked_competition_from todo : forall done prev,
  medals_descending (done ++ todo) ->
  (prev = None -> done = []) ->
  (forall p, prev = Some p ->
     exists d, last done = Some d /\ medals p = medals d
       /\ rank p = Some (Z.of_nat (count_better (done ++ todo) p) + 1)) ->
  forall x, x ∈ ranked (length done) prev todo ->
    rank x = Some (Z.of_nat (count_better (done ++ todo) x) + 1).
Proof.
  induction todo as [|e todo IH]; intros done prev Hs Hnone Hprev x Hx;
    [now apply elem_of_nil in Hx|].
  cbn [ranked] in Hx.
  assert (Hsuffix : count_better (e :: todo) e = 0%nat).
  { apply count_better_head.
    now apply StronglySorted_app_1_r in Hs. }
  assert (He : rank (next_ranked (length done) prev e)
               = Some (Z.of_nat (count_better (done ++ e :: todo) e) + 1)).
  { unfold next_ranked. destruct prev as [p|].
    - destruct (Hprev p eq_refl) as (d & Hlast & Hpd & Hrank).
      destruct (same_medals e p) eqn:Hsame.
      + apply same_medals_spec in Hsame. cbn [rank set_rank].
        rewrite Hrank. now rewrite (count_better_proper _ p e).
      + cbn [rank set_rank]. do 3 f_equal.
        rewrite count_better_app, Hsuffix, Nat.add_0_r.
        symmetry. apply count_better_all. intros y Hy.
        apply last_Some in Hlast as [done0 ->].
        assert (Hde : better d e = true).
        { apply better_total.
          - eapply descending_app_elem; [exact Hs| |left].
            apply elem_of_app. right. now left.
          - intros Heq. rewrite <- Hpd in Heq.
            apply not_true_iff_false in Hsame. apply Hsame.
            now apply same_medals_spec. }
        apply elem_of_app in Hy as [Hy|Hy].
        * apply (better_trans_l y d e); [|exact Hde].
          apply StronglySorted_app_1_l in Hs.
          eapply descending_app_elem; [exact Hs|exact Hy|left].
        * apply list_elem_of_singleton in Hy as ->. exact Hde.
    - rewrite (Hnone eq_refl). cbn [rank set_rank app].
      now rewrite Hsuffix. }
  apply elem_of_cons in Hx as [->|Hx].
  - rewrite He. do 3 f_equal. apply count_better_proper.
    now rewrite medals_next_ranked.
  - specialize (IH (done ++ [e]) (Some (next_ranked (length done) prev e))).
    rewrite <- app_assoc, length_app in IH. cbn [length app] in IH.
    replace (length done + 1)%nat with (S (length done)) in IH by lia.
    apply IH; [exact Hs|discriminate| |exact Hx].
    intros p [= <-]. exists e. rewrite last_snoc.
    split; [reflexivity|]. split; [apply medals_next_ranked|].
    rewrite He. do 3 f_equal. apply count_better_proper.
    now rewrite medals_next_ranked.
Qed.

(** Standard competition ranking: the rank of an entry is one more than
    the number of entries with a better triple. *)
Lemma ranked_competition l x :
  medals_descending l -> x ∈ ranked 0 None l ->
  rank x = Some (Z.of_nat (count_better l x) + 1).
Proof.
  intros Hs. apply (ranked_competition_from l [] None); [exact Hs|auto|].
  discriminate.
Qed.

End CompetitionRank.

(** ** The parse, step by step *)

Section ParseSteps.

Lemma v2_collect_fold w acc codes :
  foldl (V2.collect (family_dict "gold_" w) (family_dict "silver_" w)
           (family_dict "bronze_" w)) acc codes
  = acc ++ (fresh_entry V2.IOC_CODES w
            <$> filter (fun c => medal_sum w c <> 0) codes).
Proof.
  revert acc. induction codes as [|c codes IH]; intros acc.
  - now rewrite app_nil_r.
  - cbn [foldl]. rewrite IH, filter_cons. unfold V2.collect.
    fold (medal_sum w c).
    destruct (Z.eqb_spec (medal_sum w c) 0) as [H0|H0].
    + now rewrite decide_False by tauto.
    + rewrite decide_True by exact H0. now rewrite <- app_assoc.
Qed.

Lemma widget_collect_fold w acc codes :
  foldl (Widget.collect (family_dict "gold_" w) (family_dict "silver_" w)
           (family_dict "bronze_" w)) acc codes
  = acc ++ (fresh_entry Widget.IOC_CODES w
            <$> filter (fun c => medal_sum w c <> 0) codes).
Proof.
  revert acc. induction codes as [|c codes IH]; intros acc.
  - now rewrite app_nil_r.
  - cbn [foldl]. rewrite IH, filter_cons. unfold Widget.collect.
    fold (medal_sum w c).
    destruct (Z.eqb_spec (medal_sum w c) 0) as [H0|H0].
    + now rewrite decide_False by tauto.
    + rewrite decide_True by exact H0. now rewrite <- app_assoc.
Qed.

Lemma parse_medals_steps iter w :
  V2.parse_medals iter w
  = ranked 0 None (sort V2.sort_key (collected V2.IOC_CODES iter w)).
Proof.
  unfold V2.parse_medals. cbv zeta. rewrite assign_ranks_ranked.
  do 2 f_equal. apply (v2_collect_fold w []).
Qed.

Lemma widget_parse_steps iter w :
  Widget.parse iter w
  = ranked 0 None (sort V2.sort_key (collected Widget.IOC_CODES iter w)).
Proof.
  unfold Widget.parse. cbv zeta.
  change (foldl Widget.rank_step ?l (seq 0 (length ?l)))
    with (V2.assign_ranks l).
  rewrite assign_ranks_ranked.
  change Widget.sort_key with V2.sort_key.
  do 2 f_equal. apply (widget_collect_fold w []).
Qed.

End ParseSteps.

(** ** What the entries of the result are *)

Section Entries.

Lemma family_dict_lookup prefix w c v :
  family_dict prefix w !! c = Some v ->
  exists m, In m (Re.finditer (medal_pattern prefix) (strip_comments w))
            /\ Re.group 1 m = c /\ int (Re.group 2 m) = v.
Proof.
  unfold family_dict, medal_dict. intros H. apply dict_of_lookup in H.
  apply list_elem_of_In, in_map_iff in H as (m & [= <- <-] & Hm). eauto.
Qed.

Lemma family_dict_nonneg prefix w c v :
  family_dict prefix w !! c = Some v -> 0 <= v.
Proof.
  intros H. apply family_dict_lookup in H as (m & Hm & _ & <-).
  apply finditer_medal_groups in Hm as (c' & d & -> & _ & _ & Hd & _).
  now apply int_nonneg.
Qed.

Lemma get_nonneg prefix w c : 0 <= get (family_dict prefix w) c 0.
Proof.
  unfold get. destruct (family_dict prefix w !! c) as [v|] eqn:E; simpl.
  - now apply family_dict_nonneg in E.
  - lia.
Qed.

Lemma medal_sum_nonneg w c : 0 <= medal_sum w c.
Proof.
  unfold medal_sum.
  pose proof (get_nonneg "gold_" w c). pose proof (get_nonneg "silver_" w c).
  pose proof (get_nonneg "bronze_" w c). lia.
Qed.

(** An entry of the result is the record made for some code the loop
    visited, with a rank. *)
Lemma ranked_sorted_elem names iter w e :
  e ∈ ranked 0 None (sort V2.sort_key (collected names iter w)) ->
  exists c, c ∈ iter (all_codes w) /\ medal_sum w c <> 0
            /\ e = set_rank (rank e) (fresh_entry names w c).
Proof.
  intros He. apply list_elem_of_lookup in He as [k Hk].
  apply ranked_lookup in Hk as (y & Hy & ->).
  apply list_elem_of_lookup_2 in Hy. rewrite sort_perm in Hy.
  unfold collected in Hy.
  apply list_elem_of_fmap in Hy as (c & -> & Hc).
  apply list_elem_of_filter in Hc as [Hsum Hc]. eauto.
Qed.

Lemma parse_medals_elem iter w e :
  e ∈ V2.parse_medals iter w ->
  exists c, c ∈ iter (all_codes w) /\ medal_sum w c <> 0
            /\ e = set_rank (rank e) (fresh_entry V2.IOC_CODES w c).
Proof. rewrite parse_medals_steps. apply ranked_sorted_elem. Qed.

(** The sort leaves the triples in descending order. *)
Lemma key_le_not_better x y :
  key_le (V2.sort_key x) (V2.sort_key y) -> better y x = false.
Proof.
  unfold key_le. intros H. apply not_true_iff_false. intros Hb.
  apply not_true_iff_false in H. apply H. apply key_lt_spec.
  apply better_spec in Hb. unfold V2.sort_key, lex_lt. lia.
Qed.

Lemma strongly_sorted_weaken (R R' : relation entry) l :
  (forall x y, R x y -> R' x y) -> StronglySorted R l -> StronglySorted R' l.
Proof.
  intros HR. induction 1 as [|x l Hl IH Hx]; constructor; [exact IH|].
  eapply Forall_impl; [exact Hx|]. intros y. apply HR.
Qed.

Lemma sort_descending l : medals_descending (sort V2.sort_key l).
Proof.
  unfold medals_descending.
  eapply strongly_sorted_weaken; [|apply sort_sorted].
  intros x y. apply key_le_not_better.
Qed.

Lemma ranked_preserves (R : relation entry) i prev l :
  (forall x y r r', R x y -> R (set_rank r x) (set_rank r' y)) ->
  StronglySorted R l -> StronglySorted R (ranked i prev l).
Proof.
  intros HR Hs. revert i prev.
  induction Hs as [|x l Hl IH Hx]; intros i prev; cbn [ranked];
    constructor; [apply IH|].
  rewrite Forall_forall in *. intros y Hy.
  apply list_elem_of_lookup in Hy as [k Hk].
  apply ranked_lookup in Hk as (y0 & Hy0 & ->).
  rewrite next_ranked_fields. apply HR, Hx.
  now apply list_elem_of_lookup_2 in Hy0.
Qed.

Lemma parse_medals_descending iter w :
  medals_descending (V2.parse_medals iter w).
Proof.
  rewrite parse_medals_steps. apply ranked_preserves; [|apply sort_descending].
  intros x y r r' H. exact H.
Qed.

Lemma count_better_ranked i prev l e :
  count_better (ranked i prev l) e = count_better l e.
Proof.
  revert i prev. induction l as [|x l IH]; intros i prev; [reflexivity|].
  specialize (IH (S i) (Some (next_ranked i prev x))).
  unfold count_better in *. cbn [ranked List.filter].
  rewrite (better_proper _ x e e (medals_next_ranked i prev x) eq_refl).
  destruct (better x e); cbn [length]; now rewrite IH.
Qed.

(** The rank of every entry of the result, in closed form. *)
Lemma parse_medals_rank iter w e :
  e ∈ V2.parse_medals iter w ->
  rank e = Some (Z.of_nat (count_better (V2.parse_medals iter w) e) + 1).
Proof.
  rewrite parse_medals_steps. intros He.
  rewrite count_better_ranked.
  apply ranked_competition; [apply sort_descending|exact He].
Qed.

End Entries.

(** ** Ranks along the sorted sequence *)

Section RankOrder.

Lemma descending_lookup l i j x y :
  medals_descending l -> (i < j)%nat ->
  l !! i = Some x -> l !! j = Some y -> better y x = false.
Proof.
  intros Hs Hij Hx Hy. rewrite <- (take_drop_middle l j y Hy) in Hs.
  eapply descending_app_elem; [exact Hs| |left].
  apply elem_of_take. eauto.
Qed.

Lemma descending_lookup_le l i j x y :
  medals_descending l -> (i <= j)%nat ->
  l !! i = Some x -> l !! j = Some y -> better y x = false.
Proof.
  intros Hs Hij Hx Hy. destruct (decide (i = j)) as [->|Hne].
  - rewrite Hx in Hy. injection Hy as ->. now apply better_irrefl.
  - apply (descending_lookup l i j x y Hs); [lia|exact Hx|exact Hy].
Qed.

Lemma better_below x e e' :
  better e' e = false -> better x e = true -> better x e' = true.
Proof. rewrite better_false, !better_spec. lia. Qed.

Lemma count_better_mono l e e' :
  better e' e = false -> (count_better l e <= count_better l e')%nat.
Proof.
  intros H. unfold count_better.
  induction l as [|x l IH]; cbn [List.filter]; [lia|].
  destruct (better x e) eqn:E.
  - rewrite (better_below x e e' H E). simpl. lia.
  - destruct (better x e'); simpl; lia.
Qed.

Lemma count_better_strict l e e' :
  e ∈ l -> better e' e = false -> better e e' = true ->
  (count_better l e < count_better l e')%nat.
Proof.
  intros Hin. unfold count_better.
  induction Hin as [e l|e x l Hin IH]; intros H Hlt; cbn [List.filter].
  - rewrite Hlt, (better_irrefl e e eq_refl).
    pose proof (count_better_mono l e e' H) as Hm.
    unfold count_better in Hm. simpl. lia.
  - specialize (IH H Hlt). destruct (better x e) eqn:E.
    + rewrite (better_below x e e' H E). simpl. lia.
    + destruct (better x e'); simpl; lia.
Qed.

Lemma medals_between x y :
  better x y = false -> better y x = false -> medals x = medals y.
Proof.
  rewrite !better_false. unfold medals. intros H1 H2.
  assert (gold x = gold y) by lia. assert (silver x = silver y) by lia.
  assert (bronze x = bronze y) by lia. congruence.
Qed.

(** In a descending list ranked by the closed form, equal ranks mean
    equal triples. *)
Lemma equal_rank_equal_medals l i j x y :
  medals_descending l -> (i <= j)%nat ->
  l !! i = Some x -> l !! j = Some y ->
  count_better l x = count_better l y -> medals x = medals y.
Proof.
  intros Hs Hij Hx Hy Hc.
  pose proof (descending_lookup_le l i j x y Hs Hij Hx Hy) as Hyx.
  apply medals_between; [|exact Hyx].
  destruct (better x y) eqn:E; [|reflexivity].
  pose proof (count_better_strict l x y
                (list_elem_of_lookup_2 _ _ _ Hx) Hyx E). lia.
Qed.

End RankOrder.

(** * The claims *)

(** ** C1 *)


(** ** C2 *)

Example skipping_ranks :
  rank <$> V2.parse_medals elements skipping_wikitext
  = [Some 1; Some 2; Some 2; Some 4].
Proof. vm_compute. reflexivity. Qed.

(** C2, as stated, fails: a tie of two entries at rank 2 is followed by
    rank 4, so with three distinct triples the value 3 is never used. *)
Lemma dense_ranks_counterexample :
  ~ dense_ranks (V2.parse_medals elements skipping_wikitext).
Proof.
  intros H. specialize (H 3) as [_ H].
  rewrite skipping_ranks in H.
  assert (Hin : Some 3 ∈ [Some 1; Some 2; Some 2; Some 4]).
  { apply H. vm_compute. split; discriminate. }
  rewrite !elem_of_cons, elem_of_nil in Hin.
  intuition discriminate.
Qed.

(** C2, amended. Tied entries share a rank, and the rank of an entry is one
    more than the number of entries whose triple is strictly better: after
    a tie of k entries the next k - 1 rank values are skipped (standard
    competition ranking), so the values in use start at 1 and need not be
    contiguous. *)
Theorem competition_ranks iter w e :
  e ∈ V2.parse_medals iter w ->
  rank e = Some (Z.of_nat (count_better (V2.parse_medals iter w) e) + 1)
  /\ (forall e', e' ∈ V2.parse_medals iter w ->
        medals e' = medals e -> rank e' = rank e).
Proof.
  intros He. split; [now apply parse_medals_rank|].
  intros e' He' Hm.
  rewrite (parse_medals_rank iter w e He), (parse_medals_rank iter w e' He').
  now rewrite (count_better_proper _ e' e Hm).
Qed.

Lemma competition_ranks_witness :
  let out := V2.parse_medals elements skipping_wikitext in
  let e := {| rank := Some 4; code := "DDD"; country := "DDD"; gold := 0;
              silver := 1; bronze := 0; total := 1 |} in
  e ∈ out /\ count_better out e = 3%nat /\ rank e = Some (Z.of_nat 3 + 1).
Proof.
  intros out e.
  assert (He : e ∈ out) by (vm_compute; repeat constructor).
  split; [exact He|]. split; [vm_compute; reflexivity|].
  exact (proj1 (competition_ranks elements skipping_wikitext e He)).
Defined.

(** ** C3 *)

(** C3, as stated, fails: in a tie of three the first and the third entry
    share rank 1 without being neighbours. *)
Lemma ties_are_neighbours_counterexample :
  ~ ties_are_neighbours (V2.parse_medals elements three_way_tie).
Proof.
  intros H.
  pose (a := {| rank := Some 1; code := "AAA"; country := "AAA"; gold := 1;
                silver := 0; bronze := 0; total := 1 |}).
  pose (c := {| rank := Some 1; code := "CCC"; country := "CCC"; gold := 1;
                silver := 0; bronze := 0; total := 1 |}).
  assert (Ha : V2.parse_medals elements three_way_tie !! 0%nat = Some a)
    by (vm_compute; reflexivity).
  assert (Hc : V2.parse_medals elements three_way_tie !! 2%nat = Some c)
    by (vm_compute; reflexivity).
  destruct (H 0%nat 2%nat a c) as [Hadj _]; [lia|exact Ha|exact Hc|].
  destruct (Hadj eq_refl) as [_ [Hn|Hn]]; discriminate.
Qed.

(** C3, amended. Along the sorted sequence the rank never decreases, two
    entries have the same rank if and only if they have the same triple,
    and entries with the same triple stand in one unbroken run (they need
    not be neighbours). *)
Theorem rank_monotone_and_ties iter w i j ei ej :
  (i <= j)%nat ->
  V2.parse_medals iter w !! i = Some ei ->
  V2.parse_medals iter w !! j = Some ej ->
  (exists ri rj, rank ei = Some ri /\ rank ej = Some rj /\ ri <= rj)
  /\ (rank ei = rank ej <-> medals ei = medals ej)
  /\ (medals ei = medals ej ->
      forall k ek, (i <= k <= j)%nat ->
        V2.parse_medals iter w !! k = Some ek -> medals ek = medals ei).
Proof.
  intros Hij Hi Hj.
  pose proof (parse_medals_descending iter w) as Hs.
  pose proof (list_elem_of_lookup_2 _ _ _ Hi) as Hini.
  pose proof (list_elem_of_lookup_2 _ _ _ Hj) as Hinj.
  pose proof (parse_medals_rank iter w ei Hini) as Hri.
  pose proof (parse_medals_rank iter w ej Hinj) as Hrj.
  pose proof (descending_lookup_le _ i j ei ej Hs Hij Hi Hj) as Hnb.
  split; [|split].
  - do 2 eexists. split; [exact Hri|]. split; [exact Hrj|].
    pose proof (count_better_mono (V2.parse_medals iter w) ei ej Hnb). lia.
  - split.
    + rewrite Hri, Hrj. intros [= Heq].
      apply (equal_rank_equal_medals _ i j ei ej Hs Hij Hi Hj). lia.
    + intros Hm. rewrite Hri, Hrj.
      now rewrite (count_better_proper _ ei ej Hm).
  - intros Hm k ek [Hik Hkj] Hk.
    apply medals_between.
    + apply (descending_lookup_le _ i k ei ek Hs Hik Hi Hk).
    + rewrite (better_proper ei ej ek ek Hm eq_refl).
      apply (descending_lookup_le _ k j ek ej Hs Hkj Hk Hj).
Qed.

Lemma rank_monotone_and_ties_witness :
  let a := {| rank := Some 1; code := "AAA"; country := "AAA"; gold := 1;
              silver := 0; bronze := 0; total := 1 |} in
  let c := {| rank := Some 1; code := "CCC"; country := "CCC"; gold := 1;
              silver := 0; bronze := 0; total := 1 |} in
  V2.parse_medals elements three_way_tie !! 0%nat = Some a
  /\ V2.parse_medals elements three_way_tie !! 2%nat = Some c
  /\ (rank a = rank c <-> medals a = medals c).
Proof.
  intros a c.
  assert (Ha : V2.parse_medals elements three_way_tie !! 0%nat = Some a)
    by (vm_compute; reflexivity).
  assert (Hc : V2.parse_medals elements three_way_tie !! 2%nat = Some c)
    by (vm_compute; reflexivity).
  split; [exact Ha|]. split; [exact Hc|].
  refine (proj1 (proj2 (rank_monotone_and_ties elements three_way_tie
                          0%nat 2%nat a c _ Ha Hc))).
  lia.
Defined.

(** ** C4 *)

Section Determinism.

Lemma precedes_key_lt x y :
  precedes x y <-> key_lt (V2.sort_key x) (V2.sort_key y) = true.
Proof.
  rewrite key_lt_spec. unfold precedes, V2.sort_key, lex_lt.
  intuition lia.
Qed.

Lemma sort_key_code x y :
  V2.sort_key x = V2.sort_key y -> code x = code y.
Proof. unfold V2.sort_key. congruence. Qed.

Lemma collected_perm names iter1 iter2 w :
  set_iteration iter1 -> set_iteration iter2 ->
  collected names iter1 w ≡ₚ collected names iter2 w.
Proof.
  intros H1 H2. unfold collected. now rewrite (H1 _), (H2 _).
Qed.

Lemma collected_codes names iter w :
  set_iteration iter -> NoDup (code <$> collected names iter w).
Proof.
  intros Hiter. unfold collected. rewrite <- list_fmap_compose.
  rewrite (list_fmap_ext _ id) by reflexivity. rewrite list_fmap_id.
  apply NoDup_filter. rewrite (Hiter _). apply NoDup_elements.
Qed.

Lemma collected_key_inj names iter w x y :
  x ∈ collected names iter w -> y ∈ collected names iter w ->
  V2.sort_key x = V2.sort_key y -> x = y.
Proof.
  unfold collected. intros Hx Hy Hk.
  apply list_elem_of_fmap in Hx as (cx & -> & _).
  apply list_elem_of_fmap in Hy as (cy & -> & _).
  apply sort_key_code in Hk. simpl in Hk. now subst.
Qed.

Lemma sorted_independent names iter1 iter2 w :
  set_iteration iter1 -> set_iteration iter2 ->
  sort V2.sort_key (collected names iter1 w)
  = sort V2.sort_key (collected names iter2 w).
Proof.
  intros H1 H2. apply sort_unique; [now apply collected_perm|].
  apply collected_key_inj.
Qed.

Lemma parse_medals_independent iter1 iter2 w :
  set_iteration iter1 -> set_iteration iter2 ->
  V2.parse_medals iter1 w = V2.parse_medals iter2 w.
Proof.
  intros H1 H2. rewrite !parse_medals_steps.
  now rewrite (sorted_independent _ iter1 iter2).
Qed.

Lemma ranked_codes i prev l : code <$> ranked i prev l = code <$> l.
Proof.
  pose proof (ranked_fields i prev l) as H.
  apply (f_equal (fmap code)) in H.
  now rewrite <- !list_fmap_compose in H.
Qed.

Lemma parse_medals_codes iter w :
  set_iteration iter -> NoDup (code <$> V2.parse_medals iter w).
Proof.
  intros Hiter. rewrite parse_medals_steps, ranked_codes.
  rewrite sort_perm. now apply collected_codes.
Qed.

(** With distinct codes, "not greater" is "less". *)
Lemma sorted_strictly l :
  NoDup (code <$> l) ->
  StronglySorted (le_by V2.sort_key) l -> StronglySorted precedes l.
Proof.
  intros Hnd Hs. induction Hs as [|x l Hl IH Hx]; constructor.
  - apply IH. now apply NoDup_cons in Hnd as [_ Hnd].
  - apply NoDup_cons in Hnd as [Hx' _].
    rewrite Forall_forall in *. intros y Hy.
    apply precedes_key_lt, key_le_lt; [now apply Hx|].
    intros Hk. apply Hx'. apply sort_key_code in Hk. rewrite Hk.
    now apply list_elem_of_fmap_2.
Qed.

End Determinism.

(** C4. For every wikitext, the result of [parse_medals] is sorted by gold
    descending, then silver descending, then bronze descending, then code
    ascending; the codes of its entries are pairwise distinct, so any two
    entries are strictly ordered one way or the other; and the result does
    not depend on the order in which the set of codes is iterated: two
    runs on the same wikitext give the same list. *)
Theorem sorted_and_deterministic iter1 iter2 w :
  set_iteration iter1 -> set_iteration iter2 ->
  StronglySorted precedes (V2.parse_medals iter1 w)
  /\ NoDup (code <$> V2.parse_medals iter1 w)
  /\ (forall x y, code x <> code y -> precedes x y \/ precedes y x)
  /\ V2.parse_medals iter1 w = V2.parse_medals iter2 w.
Proof.
  intros H1 H2. split; [|split; [|split]].
  - pose proof (parse_medals_codes iter1 w H1) as Hnd.
    rewrite parse_medals_steps in *. rewrite ranked_codes in Hnd.
    apply ranked_preserves.
    + intros x y r r' H. exact H.
    + apply sorted_strictly; [exact Hnd|apply sort_sorted].
  - now apply parse_medals_codes.
  - intros x y Hne. rewrite !precedes_key_lt.
    destruct (key_lt (V2.sort_key x) (V2.sort_key y)) eqn:E; [now left|].
    right. apply key_le_lt; [exact E|].
    intros Hk. apply Hne. symmetry. now apply sort_key_code.
  - now apply parse_medals_independent.
Qed.

Lemma sorted_and_deterministic_witness :
  V2.parse_medals elements shuffled_wikitext
  = V2.parse_medals (fun X => reverse (elements X)) shuffled_wikitext
  /\ code <$> V2.parse_medals elements shuffled_wikitext = ["NOR"; "USA"]
  /\ rank <$> V2.parse_medals elements shuffled_wikitext = [Some 1; Some 1]
  /\ total <$> V2.parse_medals elements shuffled_wikitext = [8; 8].
Proof.
  split; [|repeat split; vm_compute; reflexivity].
  refine (proj2 (proj2 (proj2 (sorted_and_deterministic elements
            (fun X => reverse (elements X)) shuffled_wikitext _ _)))).
  - intros X. reflexivity.
  - intros X. apply reverse_Permutation.
Defined.

(** ** C5 *)

(** C5. For every wikitext, every entry of the result of [parse_medals]
    has [total = gold + silver + bronze] and [total > 0]; a code whose
    gold, silver and bronze values (0 where a dictionary has no value for
    it) add up to 0 is not the code of any entry. *)
Theorem totals_positive iter w :
  (forall e, e ∈ V2.parse_medals iter w ->
     total e = gold e + silver e + bronze e /\ total e > 0)
  /\ (forall c,
        get (family_dict "gold_" w) c 0 + get (family_dict "silver_" w) c 0
        + get (family_dict "bronze_" w) c 0 = 0 ->
        c ∉ code <$> V2.parse_medals iter w).
Proof.
  split.
  - intros e He. apply parse_medals_elem in He as (c & _ & Hsum & ->).
    cbn [total gold silver bronze set_rank fresh_entry].
    split; [reflexivity|]. pose proof (medal_sum_nonneg w c). lia.
  - intros c Hsum Hin. apply list_elem_of_fmap in Hin as (e & -> & He).
    apply parse_medals_elem in He as (c' & _ & Hsum' & Heq).
    apply Hsum'. rewrite Heq in Hsum. exact Hsum.
Qed.

(** ** C6 *)



(** ** C7 *)

(** C7, as stated, fails: removing a comment joins the text on its two
    sides, and the joined text can hold an assignment that neither side
    holds. In [| gold_A<!-- | gold_AIN = 1 -->IN = 1] the only assignment
    of AIN is inside the comment, and AIN is in the result. *)
Lemma comment_only_counterexample : ~ comment_only_codes_absent.
Proof.
  intros H.
  apply (H "| gold_A" " | gold_AIN = 1 " "IN = 1" "AIN").
  - reflexivity.
  - reflexivity.
  - vm_compute. apply not_elem_of_nil.
  - vm_compute. apply not_elem_of_nil.
  - vm_compute. repeat constructor.
Qed.

Section CommentsRemoved.

Lemma family_dict_mentioned prefix w c :
  prefix ∈ ["gold_"; "silver_"; "bronze_"] ->
  c ∈ dom (family_dict prefix w) -> c ∈ mentioned (strip_comments w).
Proof.
  intros Hp Hc. apply elem_of_dom in Hc as [v Hv].
  apply family_dict_lookup in Hv as (m & Hm & <- & _).
  apply list_elem_of_In in Hm. unfold mentioned.
  apply list_elem_of_fmap_2. rewrite !elem_of_app.
  rewrite !elem_of_cons, elem_of_nil in Hp.
  destruct Hp as [->|[->|[->|[]]]]; auto.
Qed.

Lemma parse_medals_mentioned iter w e :
  set_iteration iter ->
  e ∈ V2.parse_medals iter w -> code e ∈ mentioned (strip_comments w).
Proof.
  intros Hiter He. apply parse_medals_elem in He as (c & Hc & _ & ->).
  cbn [code set_rank fresh_entry]. rewrite (Hiter _) in Hc.
  apply elem_of_elements in Hc. unfold all_codes in Hc.
  rewrite !elem_of_union in Hc.
  destruct Hc as [[Hc|Hc]|Hc]; eapply family_dict_mentioned; try exact Hc;
    rewrite !elem_of_cons; auto.
Qed.

End CommentsRemoved.

(** C7, amended. The text from an opening marker to the first closing
    marker after it is removed before the patterns are applied, and the
    text before and after it is joined: whatever the comment holds, the
    result is that of the joined text, and a code is in the result only if
    one of the three patterns captures it there. *)
Theorem comment_body_ignored iter pre body post :
  set_iteration iter ->
  contains "<!--" (pre +:+ "<!-") = false ->
  contains "-->" (body +:+ "--") = false ->
  strip_comments (pre +:+ "<!--" +:+ body +:+ "-->" +:+ post)
  = pre +:+ strip_comments post
  /\ (forall e,
        e ∈ V2.parse_medals iter (pre +:+ "<!--" +:+ body +:+ "-->" +:+ post)
        -> code e ∈ mentioned (pre +:+ strip_comments post)).
Proof.
  intros Hiter Hpre Hbody.
  pose proof (strip_comments_one pre body post Hpre Hbody) as Hstrip.
  split; [exact Hstrip|]. intros e He. rewrite <- Hstrip.
  now apply (parse_medals_mentioned iter).
Qed.

Lemma comment_body_ignored_witness :
  let pre := "| gold_NOR = 1 " in
  let body := " | gold_AIN = 3 " in
  let post := " | silver_SWE = 2" in
  strip_comments (pre +:+ "<!--" +:+ body +:+ "-->" +:+ post)
  = "| gold_NOR = 1  | silver_SWE = 2"
  /\ code <$> V2.parse_medals elements
                (pre +:+ "<!--" +:+ body +:+ "-->" +:+ post)
     = ["NOR"; "SWE"].
Proof.
  intros pre body post.
  split; [|vm_compute; reflexivity].
  refine (proj1 (comment_body_ignored elements pre body post _ _ _)).
  - intros X. reflexivity.
  - reflexivity.
  - reflexivity.
Defined.

(** ** C8 *)


Section FilterFacts.

#[local] Arguments String.append !_ _ / : simpl nomatch.

Lemma prefix_spec n h :
  String.prefix n h = true <-> exists post, h = n +:+ post.
Proof.
  revert h. induction n as [|a n IH]; intros h.
  - split; [intros _; now exists h|]. intros _. now destruct h.
  - destruct h as [|b h]; simpl.
    + split; [discriminate|]. intros [post H]. discriminate.
    + destruct (ascii_dec a b) as [->|Hne].
      * rewrite IH. split; intros [post H]; exists post; congruence.
      * split; [discriminate|]. intros [post H]. congruence.
Qed.

Lemma contains_spec n h :
  contains n h = true <-> exists pre post, h = pre +:+ n +:+ post.
Proof.
  split.
  - induction h as [|b h IH]; cbn [contains].
    + destruct (String.prefix n EmptyString) eqn:E; [|discriminate].
      intros _. apply prefix_spec in E as [post E]. now exists EmptyString, post.
    + destruct (String.prefix n (String b h)) eqn:E.
      * intros _. apply prefix_spec in E as [post E]. now exists EmptyString, post.
      * intros H. destruct (IH H) as (pre & post & ->).
        now exists (String b pre), post.
  - intros (pre & post & ->). induction pre as [|b pre IH].
    + cbn [String.append].
      assert (E : String.prefix n (n +:+ post) = true)
        by (apply prefix_spec; now exists post).
      destruct (n +:+ post); cbn [contains]; now rewrite E.
    + cbn [String.append contains]. rewrite IH.
      now destruct (String.prefix n _).
Qed.





End FilterFacts.



(** ** C9 *)


(** ** C10 *)

Section TwoPrograms.

Lemma insert_sorted_fmap f (h : entry -> entry) x l :
  (forall y, f (h y) = f y) ->
  insert_sorted f (h x) (h <$> l) = h <$> insert_sorted f x l.
Proof.
  intros Hf. induction l as [|y l IH]; [reflexivity|].
  cbn [fmap list_fmap insert_sorted]. rewrite !Hf.
  destruct (key_lt (f y) (f x)); [|reflexivity].
  cbn [fmap list_fmap]. f_equal. exact IH.
Qed.

Lemma sort_fmap f (h : entry -> entry) l :
  (forall y, f (h y) = f y) -> sort f (h <$> l) = h <$> sort f l.
Proof.
  intros Hf. induction l as [|x l IH]; [reflexivity|].
  cbn [fmap list_fmap sort foldr].
  change (foldr (insert_sorted f) [] (h <$> l)) with (sort f (h <$> l)).
  change (foldr (insert_sorted f) [] l) with (sort f l).
  rewrite IH. now apply insert_sorted_fmap.
Qed.

Lemma ranked_with_names names i prev l :
  ranked i (with_names names <$> prev) (with_names names <$> l)
  = with_names names <$> ranked i prev l.
Proof.
  revert i prev. induction l as [|e l IH]; intros i prev; [reflexivity|].
  cbn [fmap list_fmap ranked].
  assert (Hn : next_ranked i (with_names names <$> prev)
                 (with_names names e)
               = with_names names (next_ranked i prev e)).
  { destruct prev as [p|]; [|reflexivity]. cbn [fmap option_fmap option_map].
    unfold next_ranked.
    change (same_medals (with_names names e) (with_names names p))
      with (same_medals e p).
    destruct (same_medals e p); reflexivity. }
  rewrite Hn. f_equal.
  apply (IH (S i) (Some (next_ranked i prev e))).
Qed.

Lemma collected_with_names names names' iter w :
  collected names' iter w = with_names names' <$> collected names iter w.
Proof.
  unfold collected. now rewrite <- list_fmap_compose.
Qed.

(** The widget's parse is that of the report, with its own names. *)
Lemma widget_parse_with_names iter w :
  Widget.parse iter w
  = with_names Widget.IOC_CODES <$> V2.parse_medals iter w.
Proof.
  rewrite widget_parse_steps, parse_medals_steps.
  rewrite (collected_with_names V2.IOC_CODES Widget.IOC_CODES).
  rewrite sort_fmap by reflexivity.
  apply (ranked_with_names Widget.IOC_CODES 0 None).
Qed.

(** The two tables give the same name to every code but AIN and BIH. *)
Lemma tables_agree_on_report_codes :
  map_Forall
    (fun c v => c = "AIN" \/ c = "BIH" \/ Widget.IOC_CODES !! c = Some v)
    V2.IOC_CODES.
Proof. apply (bool_decide_unpack _). vm_compute. exact I. Qed.

Lemma tables_same_codes :
  map_Forall (fun c _ => is_Some (V2.IOC_CODES !! c)) Widget.IOC_CODES.
Proof. apply (bool_decide_unpack _). vm_compute. exact I. Qed.

Lemma names_agree c :
  c <> "AIN" -> c <> "BIH" ->
  get V2.IOC_CODES c c = get Widget.IOC_CODES c c.
Proof.
  intros Ha Hb. unfold get.
  destruct (V2.IOC_CODES !! c) as [v|] eqn:E.
  - apply tables_agree_on_report_codes in E as [?|[?|E]]; [tauto|tauto|].
    now rewrite E.
  - destruct (Widget.IOC_CODES !! c) as [v'|] eqn:E'; [|reflexivity].
    apply tables_same_codes in E' as [v Hv]. congruence.
Qed.

End TwoPrograms.

(** C10. For every wikitext, [parse_medals] of olympic_medals_v2.py and
    the parsing part of [fetch_medals] of olympics.1r.10m+.py give
    sequences of the same length that agree, position by position, on
    code, gold, silver, bronze, total and rank, whatever the order in which
    each run iterates over the set of codes; the display names agree as
    well, except for the codes AIN and BIH. *)
Theorem parsers_agree iter1 iter2 w :
  set_iteration iter1 -> set_iteration iter2 ->
  length (V2.parse_medals iter1 w) = length (Widget.parse iter2 w)
  /\ (forall i x y,
        V2.parse_medals iter1 w !! i = Some x ->
        Widget.parse iter2 w !! i = Some y ->
        core x = core y
        /\ (code x <> "AIN" -> code x <> "BIH" -> country x = country y)).
Proof.
  intros H1 H2. rewrite widget_parse_with_names.
  rewrite (parse_medals_independent iter2 iter1 w H2 H1).
  split; [now rewrite length_fmap|].
  intros i x y Hx Hy. rewrite list_lookup_fmap, Hx in Hy.
  injection Hy as <-. split; [reflexivity|].
  intros Ha Hb. cbn [country with_names].
  apply list_elem_of_lookup_2, parse_medals_elem in Hx as (c & _ & _ & Hx).
  rewrite Hx in Ha, Hb |- *.
  cbn [country code set_rank fresh_entry] in *.
  now apply names_agree.
Qed.

Lemma parsers_agree_witness :
  core <$> V2.parse_medals elements neutral_wikitext
  = [("FRA", 1, 0, 3, 4, Some 1); ("AIN", 1, 0, 2, 3, Some 2)]
  /\ country <$> V2.parse_medals elements neutral_wikitext
     = ["France"; "Individual Neutral Athletes"]
  /\ country <$> Widget.parse (fun X => reverse (elements X)) neutral_wikitext
     = ["France"; "Neutral Athletes"]
  /\ length (V2.parse_medals elements neutral_wikitext)
     = length (Widget.parse (fun X => reverse (elements X)) neutral_wikitext).
Proof.
  split; [vm_compute; reflexivity|].
  split; [vm_compute; reflexivity|].
  split; [vm_compute; reflexivity|].
  refine (proj1 (parsers_agree elements (fun X => reverse (elements X))
                   neutral_wikitext _ _)).
  - intros X. reflexivity.
  - intros X. apply reverse_Permutation.
Defined.

(** * Further properties *)

(** ** Printed numbers *)

Section TextFacts.

(** The number a run of decimal digits stands for. *)
Lemma digits_value fuel : forall n acc,
  (n < 2 ^ N.of_nat fuel)%N ->
  fold_left (fun a d => 10 * a + (d - 48))%N (Text.digits fuel n acc) 0%N
  = fold_left (fun a d => 10 * a + (d - 48))%N acc n.
Proof.
  induction fuel as [|fuel IH]; intros n acc Hn.
  - simpl in Hn. assert (n = 0%N) by lia. now subst.
  - cbn [Text.digits].
    assert (Hdiv : (n = 10 * (n / 10) + n mod 10)%N)
      by apply N.div_mod'.
    assert (Hsub : (48 + n mod 10 - 48 = n mod 10)%N)
      by (rewrite N.add_comm; apply N.add_sub).
    destruct (N.eqb_spec (n / 10) 0) as [H0|H0].
    + cbn [fold_left]. f_equal. rewrite Hsub. rewrite H0 in Hdiv.
      symmetry. exact Hdiv.
    + rewrite IH.
      * cbn [fold_left]. f_equal. rewrite Hsub. symmetry. exact Hdiv.
      * rewrite Nat2N.inj_succ, N.pow_succ_r' in Hn.
        apply N.Div0.div_lt_upper_bound.
        revert Hn. generalize (2 ^ N.of_nat fuel)%N. clear. lia.
Qed.

Lemma str_N_value n :
  fold_left (fun a d => 10 * a + (d - 48))%N (Text.str_N n) 0%N = n.
Proof.
  unfold Text.str_N. rewrite digits_value; [reflexivity|].
  rewrite Nat2N.inj_succ, N2Nat.id.
  destruct n as [|p]; [reflexivity|]. apply N.log2_spec. lia.
Qed.

Lemma digits_are_digits fuel : forall n acc,
  Forall is_digit_code acc -> Forall is_digit_code (Text.digits fuel n acc).
Proof.
  induction fuel as [|fuel IH]; intros n acc Hacc; [exact Hacc|].
  cbn [Text.digits].
  assert (Hd : is_digit_code (48 + n mod 10)%N).
  { assert (Hr : (n mod 10 < 10)%N) by now apply N.mod_upper_bound.
    unfold is_digit_code. revert Hr. generalize (n mod 10)%N. lia. }
  destruct (n / 10 =? 0)%N; [|apply IH]; now constructor.
Qed.

Lemma str_nonneg_digits n : 0 <= n -> Forall is_digit_code (Text.str n).
Proof.
  intros Hn. unfold Text.str.
  destruct (Z.ltb_spec n 0); [lia|]. apply digits_are_digits. constructor.
Qed.

Lemma digits_length fuel : forall n acc k,
  (n < 10 ^ N.of_nat k)%N -> (1 <= k)%nat ->
  (length (Text.digits fuel n acc) <= length acc + k)%nat.
Proof.
  induction fuel as [|fuel IH]; intros n acc k Hn Hk; [simpl; lia|].
  cbn [Text.digits].
  destruct (N.eqb_spec (n / 10) 0) as [H0|H0]; [simpl; lia|].
  destruct k as [|[|k]]; [lia| |].
  - exfalso. apply H0. apply N.div_small. simpl in Hn. lia.
  - assert (Hq : (n / 10 < 10 ^ N.of_nat (S k))%N).
    { rewrite (Nat2N.inj_succ (S k)), N.pow_succ_r' in Hn.
      apply N.Div0.div_lt_upper_bound. exact Hn. }
    assert (Hk' : (1 <= S k)%nat) by lia.
    pose proof (IH (n / 10)%N ((48 + n mod 10)%N :: acc) (S k) Hq Hk') as H'.
    cbn [length] in H'. lia.
Qed.

Lemma digits_nonempty fuel n acc :
  (1 <= fuel)%nat -> (1 + length acc <= length (Text.digits fuel n acc))%nat.
Proof.
  revert n acc. induction fuel as [|fuel IH]; intros n acc Hf; [lia|].
  cbn [Text.digits]. destruct (n / 10 =? 0)%N; [simpl; lia|].
  destruct fuel as [|fuel]; [simpl; lia|].
  etransitivity; [|apply IH; lia]. simpl. lia.
Qed.

(** The [str] of an [int] from 0 to [10 ^ k - 1] has from 1 to [k]
    characters. *)
Lemma str_length n k :
  0 <= n < 10 ^ Z.of_nat k -> (1 <= k)%nat ->
  (1 <= length (Text.str n) <= k)%nat.
Proof.
  intros [Hn Hk] Hk1. unfold Text.str.
  destruct (Z.ltb_spec n 0); [lia|]. unfold Text.str_N. split.
  - pose proof (digits_nonempty (S (N.to_nat (N.log2 (Z.to_N n))))
                  (Z.to_N n) []) as H'. simpl in H'. apply H'. lia.
  - pose proof (digits_length (S (N.to_nat (N.log2 (Z.to_N n))))
                  (Z.to_N n) [] k) as H'. simpl in H'. apply H'; [|exact Hk1].
    apply N2Z.inj_lt. rewrite Z2N.id by lia.
    rewrite N2Z.inj_pow, nat_N_Z. exact Hk.
Qed.

End TextFacts.

(** ** What the scans leave and pass over *)

Section ScanFacts.

#[local] Arguments String.append !_ _ / : simpl nomatch.

Lemma star_then_suffix k cls :
  leaves_suffix k -> leaves_suffix (Re.star_then k cls).
Proof.
  intros Hk s. induction s as [|a s IH]; intros caps rest; simpl.
  - apply Hk.
  - destruct (cls a); [|apply Hk].
    destruct (Re.star_then k cls s) as [[c r]|] eqn:E; [|apply Hk].
    intros [= -> ->]. destruct (IH _ _ eq_refl) as [pre ->].
    now exists (String a pre).
Qed.

Lemma lazy_then_suffix k : leaves_suffix k -> leaves_suffix (Re.lazy_then k).
Proof.
  intros Hk s. induction s as [|a s IH]; intros caps rest; simpl.
  - destruct (k EmptyString) as [[c r]|] eqn:E; [|discriminate].
    intros [= -> ->]. now apply Hk in E.
  - destruct (k (String a s)) as [[c r]|] eqn:E.
    + intros [= -> ->]. now apply Hk in E.
    + intros H. destruct (IH _ _ H) as [pre ->]. now exists (String a pre).
Qed.

Lemma plus_then_suffix k cls s cap caps rest :
  leaves_suffix k ->
  Re.plus_then k cls s = Some (cap, (caps, rest)) ->
  exists pre, s = pre +:+ rest.
Proof.
  intros Hk. revert cap caps rest.
  induction s as [|a s IH]; intros cap caps rest; simpl; [discriminate|].
  destruct (cls a); [|discriminate].
  destruct (Re.plus_then k cls s) as [[c [cs r]]|] eqn:E.
  - intros [= <- <- <-]. destruct (IH _ _ _ eq_refl) as [pre ->].
    now exists (String a pre).
  - destruct (k s) as [[cs r]|] eqn:E'; [|discriminate].
    intros [= <- <- <-]. destruct (Hk _ _ _ E') as [pre ->].
    now exists (String a pre).
Qed.

Lemma match_here_suffix p : leaves_suffix (Re.match_here p).
Proof.
  induction p as [|[c|cls|cls|] p IH]; intros s caps rest; simpl.
  - intros [= <- <-]. now exists EmptyString.
  - destruct s as [|a s]; [discriminate|].
    destruct (Ascii.eqb a c); [|discriminate].
    intros H. destruct (IH _ _ _ H) as [pre ->]. now exists (String a pre).
  - apply star_then_suffix, IH.
  - destruct (Re.plus_then (Re.match_here p) cls s) as [[c [cs r]]|] eqn:E;
      [|discriminate].
    intros [= <- <-]. eapply plus_then_suffix; [exact IH|exact E].
  - apply lazy_then_suffix, IH.
Qed.

Lemma list_of_append s t :
  list_ascii_of_string (s +:+ t)
  = list_ascii_of_string s ++ list_ascii_of_string t.
Proof. induction s as [|a s IH]; simpl; [reflexivity|]. now rewrite IH. Qed.

(** What a scan passes over is the text less the matches, in order. *)
Lemma unmatched_sublist p n : forall s,
  list_ascii_of_string (Re.unmatched (Re.scan n p s))
  `sublist_of` list_ascii_of_string s.
Proof.
  induction n as [|n IH]; intros s; [apply sublist_nil_l|].
  destruct s as [|a s]; [reflexivity|]. cbn [Re.scan].
  destruct (Re.match_here p (String a s)) as [[caps rest]|] eqn:E.
  - cbn [Re.unmatched]. destruct (match_here_suffix p _ _ _ E) as [pre ->].
    rewrite list_of_append. apply sublist_inserts_l, IH.
  - cbn [Re.unmatched list_ascii_of_string]. apply sublist_skip, IH.
Qed.

Lemma contains_tail n c s : contains n (String c s) = false ->
  contains n s = false.
Proof. cbn [contains]. now destruct (String.prefix n (String c s)). Qed.

Lemma contains_prefix n s : String.prefix n s = true -> contains n s = true.
Proof. intros H. destruct s; cbn [contains]; now rewrite H. Qed.

Lemma contains_cons n c s : contains n s = true ->
  contains n (String c s) = true.
Proof.
  intros H. cbn [contains]. now destruct (String.prefix n (String c s)).
Qed.

Lemma lazy_then_found {A} (k : string -> option A) s r :
  Re.lazy_then k s = Some r ->
  (forall t, is_Some (k t) -> String.prefix "-->" t = true) ->
  contains "-->" s = true.
Proof.
  intros H Hk. induction s as [|a s IH]; simpl in H.
  - destruct (k EmptyString) eqn:E; [|discriminate].
    apply contains_prefix, Hk. rewrite E. eauto.
  - destruct (k (String a s)) eqn:E.
    + apply contains_prefix, Hk. rewrite E. eauto.
    + apply contains_cons, IH, H.
Qed.

(** A comment is matched only where an opening marker starts and a
    closing marker follows. *)
Lemma comment_match_needs s r :
  Re.match_here comment_pattern s = Some r ->
  contains "<!--" s = true /\ contains "-->" s = true.
Proof.
  intros H.
  change comment_pattern
    with (Re.lits "<!--" ++ Re.LazyAny :: Re.lits "-->") in H.
  destruct (String.prefix "<!--" s) eqn:Hp;
    [|now rewrite (match_lits_fail "<!--" _ s Hp) in H].
  split; [now apply contains_prefix|].
  apply prefix_spec in Hp as [s' ->].
  rewrite match_lits in H. cbn [Re.match_here] in H.
  do 4 apply contains_cons. eapply lazy_then_found; [exact H|].
  intros t [r' Hr'].
  destruct (String.prefix "-->" t) eqn:Ht; [reflexivity|].
  rewrite <- (app_nil_r (Re.lits "-->")) in Hr'.
  now rewrite (match_lits_fail "-->" [] t Ht) in Hr'.
Qed.

Lemma scan_without_match p n : forall s,
  (String.length s <= n)%nat ->
  (forall t, (exists pre, s = pre +:+ t) -> Re.match_here p t = None) ->
  Re.unmatched (Re.scan n p s) = s.
Proof.
  induction n as [|n IH]; intros s Hn Hnone.
  - destruct s; [reflexivity|simpl in Hn; lia].
  - destruct s as [|a s]; [reflexivity|]. cbn [Re.scan].
    rewrite (Hnone (String a s)) by now exists EmptyString.
    cbn [Re.unmatched]. f_equal. apply IH; [simpl in Hn; lia|].
    intros t [pre ->]. apply Hnone. now exists (String a pre).
Qed.

Lemma contains_suffix n pre t :
  contains n (pre +:+ t) = false -> contains n t = false.
Proof.
  induction pre as [|a pre IH]; [trivial|].
  intros H. apply IH. now apply contains_tail in H.
Qed.

End ScanFacts.

(** ** More about the parse *)

Section ParseExtras.

Lemma bind_all_dom {V} (d : gmap string V) kvs c :
  c ∈ dom (bind_all d kvs) <-> c ∈ dom d \/ c ∈ kvs.*1.
Proof.
  revert d. induction kvs as [|[k v] kvs IH]; intros d.
  - simpl. rewrite elem_of_nil. tauto.
  - unfold bind_all in *. cbn [foldl fmap list_fmap fst snd].
    rewrite IH, dom_insert_L, elem_of_union, elem_of_singleton, elem_of_cons.
    tauto.
Qed.

Lemma medal_dict_dom ms c :
  c ∈ dom (medal_dict ms) <-> c ∈ (Re.group 1 <$> ms).
Proof.
  unfold medal_dict, dict_of.
  fold (bind_all (∅ : gmap string Z)
          (map (λ m, (Re.group 1 m, int (Re.group 2 m))) ms)).
  rewrite bind_all_dom, dom_empty_L, elem_of_empty.
  change (map ?f ms) with (f <$> ms). rewrite <- list_fmap_compose.
  change (fst ∘ _) with (Re.group 1). tauto.
Qed.

(** The set [all_codes] holds the codes the three patterns capture. *)
Lemma all_codes_mentioned w c :
  c ∈ all_codes w <-> c ∈ mentioned (strip_comments w).
Proof.
  unfold all_codes, mentioned, family_dict.
  rewrite !elem_of_union, !medal_dict_dom, !fmap_app, !elem_of_app. tauto.
Qed.

Lemma scan_no_pipe prefix n : forall s,
  "|"%char ∉ list_ascii_of_string s ->
  Re.matches (Re.scan n (medal_pattern prefix) s) = [].
Proof.
  induction n as [|n IH]; intros s Hs; [reflexivity|].
  destruct s as [|a s]; [reflexivity|].
  cbn [list_ascii_of_string] in Hs. apply not_elem_of_cons in Hs as [Ha Hs].
  cbn [Re.scan].
  assert (Hnone : Re.match_here (medal_pattern prefix) (String a s) = None).
  { unfold medal_pattern. cbn [app Re.match_here].
    destruct (Ascii.eqb_spec a "|"); [congruence|reflexivity]. }
  rewrite Hnone. cbn [Re.matches]. now apply IH.
Qed.

Lemma iter_empty iter : set_iteration iter -> iter ∅ = [].
Proof.
  intros H. apply Permutation_nil_r. now rewrite (H ∅), elements_empty.
Qed.

Lemma no_pipe_no_codes w :
  "|"%char ∉ list_ascii_of_string w -> all_codes w = ∅.
Proof.
  intros Hw.
  assert (Hclean : "|"%char ∉ list_ascii_of_string (strip_comments w)).
  { intros Hin. apply Hw. eapply elem_of_sublist; [exact Hin|].
    apply unmatched_sublist. }
  assert (Hd : forall prefix, family_dict prefix w = ∅).
  { intros prefix. unfold family_dict, Re.finditer.
    now rewrite scan_no_pipe. }
  unfold all_codes. rewrite !Hd, dom_empty_L. set_solver.
Qed.

End ParseExtras.

(** X1. A wikitext in which no comment is opened, or none is closed, is left
    as it is: the assignments after an opening marker that is never closed
    still count. *)
Theorem unclosed_comment_kept s :
  contains "<!--" s = false \/ contains "-->" s = false ->
  strip_comments s = s.
Proof.
  intros H. unfold strip_comments, Re.sub_empty.
  apply scan_without_match; [lia|]. intros t [pre ->].
  destruct (Re.match_here comment_pattern t) as [r|] eqn:E; [|reflexivity].
  apply comment_match_needs in E as [E1 E2].
  destruct H as [H|H]; apply contains_suffix in H; congruence.
Qed.

Lemma unclosed_comment_kept_witness :
  let s := "| gold_NOR = 1 <!-- | gold_AIN = 3" in
  strip_comments s = s
  /\ core <$> V2.parse_medals elements s
     = [("AIN", 3, 0, 0, 3, Some 1); ("NOR", 1, 0, 0, 1, Some 2)].
Proof.
  intros s. split; [|vm_compute; reflexivity].
  apply (unclosed_comment_kept s). right. reflexivity.
Defined.

(** X2. Removing the comments only takes characters away: what is left is
    the wikitext less some of its characters, in the same order. *)
Theorem stripped_text_is_subsequence s :
  list_ascii_of_string (strip_comments s) `sublist_of` list_ascii_of_string s.
Proof. apply unmatched_sublist. Qed.

(** X3. A wikitext without the character [|], the empty one included, gives
    no entry: the report ends with status 1 and the widget prints its
    failure lines. *)
Theorem no_pipe_no_entries iter w :
  set_iteration iter ->
  "|"%char ∉ list_ascii_of_string w ->
  V2.parse_medals iter w = []
  /\ (forall a, Report.exit_status (Report.main iter a (inr w)) = 1)
  /\ Widget.main iter (Some w) = Some Widget.failure_lines.
Proof.
  intros Hiter Hw.
  assert (Hparse : V2.parse_medals iter w = []).
  { rewrite parse_medals_steps. unfold collected.
    now rewrite (no_pipe_no_codes w Hw), (iter_empty iter Hiter). }
  split; [exact Hparse|]. split.
  - intros a. unfold Report.main, Report.fetch_wikitext.
    cbn [mbind Report.M_bind mret Report.M_ret]. rewrite Hparse.
    destruct (Report.oneline a); reflexivity.
  - unfold Widget.main, Widget.fetch_medals.
    now rewrite widget_parse_with_names, Hparse.
Qed.

Lemma no_pipe_no_entries_witness :
  V2.parse_medals elements "gold_NOR = 5, silver_NOR = 2" = []
  /\ Widget.main elements (Some EmptyString) = Some Widget.failure_lines.
Proof.
  split.
  - refine (proj1 (no_pipe_no_entries elements
                     "gold_NOR = 5, silver_NOR = 2" _ _)).
    + intros X. reflexivity.
    + apply (bool_decide_unpack _). vm_compute. exact I.
  - refine (proj2 (proj2 (no_pipe_no_entries elements EmptyString _ _))).
    + intros X. reflexivity.
    + simpl. apply not_elem_of_nil.
Defined.

(** X4. No entry of the result is left with rank [None]: the entry at index
    [i] has a rank from 1 to [i + 1]. *)
Theorem every_entry_ranked iter w i e :
  V2.parse_medals iter w !! i = Some e ->
  exists r, rank e = Some r /\ 1 <= r <= Z.of_nat i + 1.
Proof.
  rewrite parse_medals_steps. intros He.
  eapply ranked_bound in He as (r & Hr & Hb); [|discriminate].
  exists r. split; [exact Hr|]. cbn [Nat.add] in Hb. exact Hb.
Qed.

Lemma every_entry_ranked_witness :
  exists e, V2.parse_medals elements skipping_wikitext !! 3%nat = Some e
            /\ rank e = Some 4.
Proof.
  assert (He : V2.parse_medals elements skipping_wikitext !! 3%nat
               = Some {| rank := Some 4; code := "DDD"; country := "DDD";
                         gold := 0; silver := 1; bronze := 0; total := 1 |})
    by (vm_compute; reflexivity).
  destruct (every_entry_ranked elements skipping_wikitext 3%nat _ He)
    as (r & Hr & _).
  eexists. split; [exact He|]. reflexivity.
Defined.

Section EntryExtras.

Lemma parse_medals_codes_perm iter w :
  code <$> V2.parse_medals iter w
  ≡ₚ filter (fun c => medal_sum w c <> 0) (iter (all_codes w)).
Proof.
  rewrite parse_medals_steps, ranked_codes, sort_perm. unfold collected.
  rewrite <- list_fmap_compose.
  rewrite (list_fmap_ext _ id) by reflexivity. now rewrite list_fmap_id.
Qed.

Lemma captured_code_is_word w c :
  c ∈ mentioned (strip_comments w) ->
  all_chars is_word c = true /\ c <> EmptyString.
Proof.
  unfold mentioned. intros Hc.
  apply list_elem_of_fmap in Hc as (m & -> & Hm).
  rewrite !elem_of_app in Hm.
  assert (Hg : exists prefix,
             In m (Re.finditer (medal_pattern prefix) (strip_comments w))).
  { destruct Hm as [Hm|[Hm|Hm]]; apply list_elem_of_In in Hm; eauto. }
  destruct Hg as [prefix Hg].
  apply finditer_medal_groups in Hg as (c & d & -> & Hw & Hne & _).
  now split.
Qed.

Lemma parse_medals_code_word iter w e :
  set_iteration iter ->
  e ∈ V2.parse_medals iter w ->
  all_chars is_word (code e) = true /\ code e <> EmptyString.
Proof.
  intros Hiter He. apply captured_code_is_word with w.
  now apply (parse_medals_mentioned iter).
Qed.

Lemma report_names_nonempty :
  map_Forall (fun _ name => name <> EmptyString) V2.IOC_CODES.
Proof. apply (bool_decide_unpack _). vm_compute. exact I. Qed.

End EntryExtras.

(** X5. The codes of the result are exactly the codes that one of the three
    patterns captures in the comment-stripped text and whose three values
    do not add up to 0; none is missing. *)
Theorem codes_of_result iter w c :
  set_iteration iter ->
  c ∈ code <$> V2.parse_medals iter w
  <-> c ∈ mentioned (strip_comments w) /\ medal_sum w c <> 0.
Proof.
  intros Hiter. rewrite parse_medals_codes_perm, list_elem_of_filter.
  rewrite (Hiter _), elem_of_elements, all_codes_mentioned. tauto.
Qed.

Lemma codes_of_result_witness :
  "NOR" ∈ code <$> V2.parse_medals elements repeated_wikitext
  /\ medal_sum repeated_wikitext "NOR" = 5.
Proof.
  split; [|vm_compute; reflexivity].
  apply (codes_of_result elements repeated_wikitext "NOR").
  - intros X. reflexivity.
  - split; [vm_compute; repeat constructor|vm_compute; discriminate].
Defined.

(** X6. Every entry has a code that is a non-empty run of word characters
    (so no blank, [|] or [=]), and gold, silver and bronze counts that
    are not negative. *)
Theorem entry_fields_well_formed iter w e :
  set_iteration iter ->
  e ∈ V2.parse_medals iter w ->
  code e <> EmptyString /\ all_chars is_word (code e) = true
  /\ 0 <= gold e /\ 0 <= silver e /\ 0 <= bronze e.
Proof.
  intros Hiter He.
  destruct (parse_medals_code_word iter w e Hiter He) as [Hw Hne].
  split; [exact Hne|]. split; [exact Hw|].
  apply parse_medals_elem in He as (c & _ & _ & He).
  rewrite He. cbn [gold silver bronze set_rank fresh_entry].
  repeat split; apply get_nonneg.
Qed.

Lemma entry_fields_well_formed_witness :
  let e := {| rank := Some 1; code := "NOR"; country := "Norway"; gold := 5;
              silver := 0; bronze := 0; total := 5 |} in
  e ∈ V2.parse_medals elements repeated_wikitext
  /\ all_chars is_word (code e) = true.
Proof.
  intros e.
  assert (He : e ∈ V2.parse_medals elements repeated_wikitext)
    by (vm_compute; repeat constructor).
  split; [exact He|].
  refine (proj1 (proj2 (entry_fields_well_formed elements repeated_wikitext
                          e _ He))).
  intros X. reflexivity.
Defined.

(** X7. The display name of an entry is the name the table has for its code,
    and the code itself when the table has none; it is never empty. *)
Theorem country_of_entry iter w e :
  set_iteration iter ->
  e ∈ V2.parse_medals iter w ->
  country e = default (code e) (V2.IOC_CODES !! code e)
  /\ country e <> EmptyString.
Proof.
  intros Hiter He.
  destruct (parse_medals_code_word iter w e Hiter He) as [_ Hne].
  apply parse_medals_elem in He as (c & _ & _ & He).
  rewrite He in Hne |- *.
  cbn [code country set_rank fresh_entry] in *. split; [reflexivity|].
  unfold get. destruct (V2.IOC_CODES !! c) as [name|] eqn:E; simpl.
  - now apply report_names_nonempty in E.
  - exact Hne.
Qed.

Lemma country_of_entry_witness :
  let e := {| rank := Some 1; code := "ZZZ"; country := "ZZZ"; gold := 1;
              silver := 0; bronze := 0; total := 1 |} in
  e ∈ V2.parse_medals elements "| gold_ZZZ = 1"
  /\ V2.IOC_CODES !! "ZZZ" = None
  /\ country e = code e.
Proof.
  intros e.
  assert (He : e ∈ V2.parse_medals elements "| gold_ZZZ = 1")
    by (vm_compute; repeat constructor).
  split; [exact He|]. split; [vm_compute; reflexivity|].
  exact (proj1 (country_of_entry elements _ e (fun X => reflexivity _) He)).
Defined.

(** X8. The first entry of the result, the leader of the widget, has rank 1;
    no entry has a better triple, and the entries of rank 1 are those
    with the leader's triple. *)
Theorem leader_is_best iter w l e :
  V2.parse_medals iter w !! 0%nat = Some l ->
  e ∈ V2.parse_medals iter w ->
  rank l = Some 1 /\ better e l = false
  /\ (rank e = Some 1 <-> medals e = medals l).
Proof.
  intros Hl He.
  pose proof (parse_medals_descending iter w) as Hs.
  apply list_elem_of_lookup in He as [j Hj].
  assert (Hrl : rank l = Some 1).
  { pose proof Hl as Hl'. rewrite parse_medals_steps in Hl'.
    eapply ranked_bound in Hl' as (r & Hr & Hb); [|discriminate].
    rewrite Hr. f_equal. cbn [Nat.add] in Hb. lia. }
  split; [exact Hrl|].
  split; [apply (descending_lookup_le _ 0 j l e Hs); [lia|exact Hl|exact Hj]|].
  pose proof (parse_medals_rank iter w l (list_elem_of_lookup_2 _ _ _ Hl))
    as Hcl.
  pose proof (parse_medals_rank iter w e (list_elem_of_lookup_2 _ _ _ Hj))
    as Hce.
  rewrite Hrl in Hcl. injection Hcl as Hcl. rewrite Hce. split.
  - intros [= Heq]. symmetry.
    apply (equal_rank_equal_medals _ 0 j l e Hs); [lia|exact Hl|exact Hj|lia].
  - intros Hm. rewrite (count_better_proper _ e l Hm). f_equal. lia.
Qed.

Lemma leader_is_best_witness :
  let l := {| rank := Some 1; code := "AAA"; country := "AAA"; gold := 2;
              silver := 0; bronze := 0; total := 2 |} in
  let e := {| rank := Some 2; code := "CCC"; country := "CCC"; gold := 1;
              silver := 0; bronze := 0; total := 1 |} in
  V2.parse_medals elements skipping_wikitext !! 0%nat = Some l
  /\ e ∈ V2.parse_medals elements skipping_wikitext
  /\ better e l = false.
Proof.
  intros l e.
  assert (Hl : V2.parse_medals elements skipping_wikitext !! 0%nat = Some l)
    by (vm_compute; reflexivity).
  assert (He : e ∈ V2.parse_medals elements skipping_wikitext)
    by (vm_compute; repeat constructor).
  split; [exact Hl|]. split; [exact He|].
  exact (proj1 (proj2 (leader_is_best elements skipping_wikitext l e Hl He))).
Defined.

(** ** More about the report driver *)

Section ReportExtras.

#[local] Arguments String.append !_ _ / : simpl nomatch.

Lemma list_filter_sublist {A} (f : A -> bool) l :
  List.filter f l `sublist_of` l.
Proof.
  induction l as [|x l IH]; simpl; [constructor|].
  destruct (f x); now constructor.
Qed.

Lemma slice_to_take {A} n (l : list A) :
  exists k, Report.slice_to n l = take k l.
Proof. unfold Report.slice_to. destruct (n <? 0); eauto. Qed.

Lemma limit_top_take a (l : list entry) :
  exists k, Report.limit_top a l = take k l.
Proof.
  unfold Report.limit_top. destruct (Report.top a) as [n|].
  - destruct (n =? 0); [|apply slice_to_take].
    exists (length l). now rewrite firstn_all.
  - exists (length l). now rewrite firstn_all.
Qed.

Lemma filter_country_sublist a medals :
  Report.filter_country a medals `sublist_of` medals.
Proof.
  unfold Report.filter_country.
  destruct (Report.arg_country a) as [[|c q]|]; try reflexivity.
  apply list_filter_sublist.
Qed.

Lemma shown_sublist a medals :
  Report.limit_top a (Report.filter_country a medals) `sublist_of` medals.
Proof.
  destruct (limit_top_take a (Report.filter_country a medals)) as [k ->].
  etransitivity; [apply sublist_take|apply filter_country_sublist].
Qed.

Lemma strongly_sorted_sublist (R : relation entry) l1 l2 :
  l1 `sublist_of` l2 -> StronglySorted R l2 -> StronglySorted R l1.
Proof.
  induction 1 as [|x l1 l2 Hsub IH|x l1 l2 Hsub IH]; intros Hs.
  - constructor.
  - apply StronglySorted_inv in Hs as [Hs Hx]. constructor; [now apply IH|].
    rewrite Forall_forall in *. intros y Hy. apply Hx.
    eapply elem_of_sublist; eauto.
  - apply StronglySorted_inv in Hs as [Hs _]. now apply IH.
Qed.

Lemma parse_medals_sorted iter w :
  set_iteration iter -> StronglySorted precedes (V2.parse_medals iter w).
Proof.
  intros Hiter. pose proof (parse_medals_codes iter w Hiter) as Hnd.
  rewrite parse_medals_steps in *. rewrite ranked_codes in Hnd.
  apply ranked_preserves.
  - intros x y r r' H. exact H.
  - apply sorted_strictly; [exact Hnd|apply sort_sorted].
Qed.

Lemma append_empty_r s : s +:+ EmptyString = s.
Proof. induction s as [|a s IH]; simpl; [reflexivity|]. now rewrite IH. Qed.

Lemma contains_self s : contains s s = true.
Proof.
  apply contains_spec. exists EmptyString, EmptyString.
  now rewrite append_empty_r.
Qed.

End ReportExtras.


(** X10. A country filter that matches no entry is not an error: the run ends
    with status 0 and prints to the standard output, in table mode the
    notice that no medal data was found. *)
Theorem unmatched_filter_is_not_an_error iter a w :
  V2.parse_medals iter w <> [] ->
  Report.filter_country a (V2.parse_medals iter w) = [] ->
  Report.exit_status (Report.main iter a (inr w)) = 0
  /\ Report.printed (Report.main iter a (inr w))
     = [(Report.Stdout,
         if Report.oneline a then Report.OnelineText []
         else if Report.json a then Report.JsonText []
         else Report.NoDataFound)].
Proof.
  intros Hsome Hnone. unfold Report.main, Report.fetch_wikitext.
  cbn [mbind Report.M_bind mret Report.M_ret].
  destruct (V2.parse_medals iter w) as [|m ms] eqn:E; [congruence|].
  rewrite Hnone.
  assert (Hlim : Report.limit_top a [] = []).
  { destruct (limit_top_take a []) as [k ->]. now destruct k. }
  rewrite Hlim.
  assert (Hshow : (if negb (Report.truthy (Report.arg_country a))
                   then Report.slice_to 3 [] else @nil entry) = []).
  { destruct (negb _); [|reflexivity].
    destruct (@slice_to_take entry 3 []) as [k ->]. now destruct k. }
  rewrite Hshow.
  destruct (Report.oneline a); [split; reflexivity|].
  destruct (Report.json a); split; reflexivity.
Qed.

Lemma unmatched_filter_is_not_an_error_witness :
  let a := {| Report.json := false; Report.top := None;
              Report.arg_country := Some "atlantis";
              Report.oneline := false |} in
  Report.exit_status (Report.main elements a (inr repeated_wikitext)) = 0
  /\ Report.printed (Report.main elements a (inr repeated_wikitext))
     = [(Report.Stdout, Report.NoDataFound)].
Proof.
  intros a.
  assert (H1 : V2.parse_medals elements repeated_wikitext <> [])
    by (vm_compute; discriminate).
  assert (H2 : Report.filter_country a
                 (V2.parse_medals elements repeated_wikitext) = [])
    by (vm_compute; reflexivity).
  exact (unmatched_filter_is_not_an_error elements a repeated_wikitext H1 H2).
Defined.

Section ShownEntries.

Lemma slice_to_prefix {A} n (l : list A) : Report.slice_to n l `prefix_of` l.
Proof. destruct (slice_to_take n l) as [k ->]. apply prefix_take. Qed.

Lemma limit_top_prefix a (l : list entry) : Report.limit_top a l `prefix_of` l.
Proof. destruct (limit_top_take a l) as [k ->]. apply prefix_take. Qed.

Lemma prefix_sublist {A} (l1 l2 : list A) :
  l1 `prefix_of` l2 -> l1 `sublist_of` l2.
Proof. intros [k ->]. apply sublist_inserts_r. reflexivity. Qed.

Lemma main_printed_entries iter a w to t :
  (to, t) ∈ Report.printed (Report.main iter a (inr w)) ->
  entries_of t `sublist_of` V2.parse_medals iter w.
Proof.
  unfold Report.main, Report.fetch_wikitext.
  cbn [mbind Report.M_bind mret Report.M_ret].
  pose proof (shown_sublist a (V2.parse_medals iter w)) as Hshown.
  destruct (V2.parse_medals iter w) as [|m ms] eqn:E.
  - destruct (Report.oneline a); cbn; intros H;
      apply list_elem_of_singleton in H; injection H as -> ->; apply sublist_nil_l.
  - set (shown := Report.limit_top a _) in *.
    destruct (Report.oneline a).
    + cbn. intros H. apply list_elem_of_singleton in H.
      injection H as -> ->. cbn [entries_of].
      destruct (negb _); [|exact Hshown].
      etransitivity; [|exact Hshown].
      apply prefix_sublist, (slice_to_prefix 3).
    + destruct (Report.json a).
      * cbn. intros H. apply list_elem_of_singleton in H.
        injection H as -> ->. exact Hshown.
      * unfold Report.format_pretty. destruct shown eqn:Es; cbn; intros H;
          apply list_elem_of_singleton in H; injection H as -> ->;
          [apply sublist_nil_l|exact Hshown].
Qed.

Lemma parse_medals_total iter w e :
  e ∈ V2.parse_medals iter w ->
  total e = gold e + silver e + bronze e /\ 1 <= total e
  /\ 0 <= gold e /\ 0 <= silver e /\ 0 <= bronze e.
Proof.
  intros He. apply parse_medals_elem in He as (c & _ & Hsum & ->).
  cbn [total gold silver bronze set_rank fresh_entry].
  pose proof (get_nonneg "gold_" w c). pose proof (get_nonneg "silver_" w c).
  pose proof (get_nonneg "bronze_" w c). unfold medal_sum in *. lia.
Qed.

Lemma sums_add_up (l : list entry) :
  (forall e, e ∈ l -> total e = gold e + silver e + bronze e /\ 1 <= total e
                      /\ 0 <= gold e /\ 0 <= silver e /\ 0 <= bronze e) ->
  Report.sum_of total l
  = Report.sum_of gold l + Report.sum_of silver l + Report.sum_of bronze l
  /\ Z.of_nat (length l) <= Report.sum_of total l
  /\ 0 <= Report.sum_of gold l /\ 0 <= Report.sum_of silver l
  /\ 0 <= Report.sum_of bronze l.
Proof.
  unfold Report.sum_of. induction l as [|e l IH]; intros H.
  - cbn. lia.
  - cbn [fmap list_fmap foldr length].
    destruct IH as (I1 & I2 & I3 & I4 & I5).
    { intros x Hx. apply H. now right. }
    destruct (H e) as (H1 & H2 & H3 & H4 & H5); [left|].
    change (list_fmap entry Z ?f l) with (f <$> l). lia.
Qed.

End ShownEntries.

(** X11. Whatever the options, the entries a run of the report presents are
    entries of the parsed table, in the order of the table: the filter and
    the limits only leave entries out. So the presented entries are still
    in medal order, no code occurs twice, and every entry carries the rank
    it has in the complete table. *)
Theorem shown_entries_keep_order iter a w to t :
  set_iteration iter ->
  (to, t) ∈ Report.printed (Report.main iter a (inr w)) ->
  entries_of t `sublist_of` V2.parse_medals iter w
  /\ StronglySorted precedes (entries_of t)
  /\ NoDup (code <$> entries_of t)
  /\ (forall e, e ∈ entries_of t ->
        rank e
        = Some (Z.of_nat (count_better (V2.parse_medals iter w) e) + 1)).
Proof.
  intros Hiter Hin. apply main_printed_entries in Hin as Hsub.
  split; [exact Hsub|]. split; [|split].
  - eapply strongly_sorted_sublist; [exact Hsub|].
    now apply parse_medals_sorted.
  - apply (sublist_NoDup _ (code <$> V2.parse_medals iter w));
      [now apply parse_medals_codes|].
    apply fmap_sublist. exact Hsub.
  - intros e He. apply parse_medals_rank. eapply elem_of_sublist; eauto.
Qed.

Lemma shown_entries_keep_order_witness :
  let a := {| Report.json := true; Report.top := Some 2;
              Report.arg_country := Some "a";
              Report.oneline := false |} in
  exists shown,
    Report.printed (Report.main elements a (inr skipping_wikitext))
    = [(Report.Stdout, Report.JsonText shown)]
    /\ shown `sublist_of` V2.parse_medals elements skipping_wikitext
    /\ StronglySorted precedes shown.
Proof.
  intros a. eexists. split; [vm_compute; reflexivity|].
  match goal with
  | |- ?l `sublist_of` _ /\ _ =>
      pose proof (shown_entries_keep_order elements a skipping_wikitext
                    Report.Stdout (Report.JsonText l)
                    (fun X => reflexivity _)) as H
  end.
  destruct H as (H1 & H2 & _).
  - vm_compute. left.
  - split; [exact H1|exact H2].
Defined.

(** X12. [--top n] keeps the entries from the start of the list: the first [n]
    when [n] is positive, all of them when [n] is 0, and all but the last
    [-n] when [n] is negative. *)
Theorem top_limit_length a (medals : list entry) n :
  Report.top a = Some n ->
  Report.limit_top a medals `prefix_of` medals
  /\ Z.of_nat (length (Report.limit_top a medals))
     = if n =? 0 then Z.of_nat (length medals)
       else if n <? 0 then Z.max 0 (Z.of_nat (length medals) + n)
       else Z.min n (Z.of_nat (length medals)).
Proof.
  intros Hn. split; [apply limit_top_prefix|].
  unfold Report.limit_top, Report.slice_to. rewrite Hn.
  destruct (Z.eqb_spec n 0); [reflexivity|].
  destruct (Z.ltb_spec n 0); rewrite length_take; lia.
Qed.

Lemma top_limit_length_witness :
  let a := {| Report.json := false; Report.top := Some (-1);
              Report.arg_country := None; Report.oneline := false |} in
  let medals := V2.parse_medals elements skipping_wikitext in
  Report.limit_top a medals `prefix_of` medals
  /\ Z.of_nat (length (Report.limit_top a medals)) = 3.
Proof.
  intros a medals.
  exact (top_limit_length a medals (-1) (reflexivity _)).
Defined.

(** X13. With [--oneline] and no country query, the line is made from at most
    three entries, the first ones of the table ([--top] can only shorten
    the list further); [--json] has no effect. *)
Theorem oneline_shows_at_most_three iter a w :
  Report.oneline a = true ->
  Report.truthy (Report.arg_country a) = false ->
  V2.parse_medals iter w <> [] ->
  exists show,
    Report.main iter a (inr w)
    = ([(Report.Stdout, Report.OnelineText show)], inl tt)
    /\ show `prefix_of` V2.parse_medals iter w
    /\ (length show <= 3)%nat
    /\ (Report.top a = None -> show = take 3 (V2.parse_medals iter w)).
Proof.
  intros Ho Hq Hne. unfold Report.main, Report.fetch_wikitext.
  cbn [mbind Report.M_bind mret Report.M_ret].
  assert (Hf : Report.filter_country a (V2.parse_medals iter w)
               = V2.parse_medals iter w).
  { unfold Report.filter_country.
    destruct (Report.arg_country a) as [[|c q]|]; try reflexivity.
    discriminate. }
  destruct (V2.parse_medals iter w) as [|m ms] eqn:E; [congruence|].
  rewrite Ho, Hq, Hf. cbn [negb].
  eexists. split; [reflexivity|]. split; [|split].
  - etransitivity; [apply slice_to_prefix|apply limit_top_prefix].
  - change (Report.slice_to 3 ?l) with (take 3 l).
    rewrite length_take. lia.
  - intros Ht. unfold Report.limit_top. rewrite Ht. reflexivity.
Qed.

Lemma oneline_shows_at_most_three_witness :
  let a := {| Report.json := true; Report.top := None;
              Report.arg_country := None; Report.oneline := true |} in
  exists show,
    Report.main elements a (inr skipping_wikitext)
    = ([(Report.Stdout, Report.OnelineText show)], inl tt)
    /\ (length show <= 3)%nat.
Proof.
  intros a.
  destruct (oneline_shows_at_most_three elements a skipping_wikitext)
    as (show & H1 & _ & H3 & _);
    [reflexivity|reflexivity|vm_compute; discriminate|].
  exists show. split; [exact H1|exact H3].
Defined.

Section TableFacts.

Lemma length_of_string s : length (Text.of_string s) = String.length s.
Proof.
  unfold Text.of_string. rewrite length_fmap.
  induction s as [|c s IH]; simpl; [reflexivity|]. now rewrite IH.
Qed.

Lemma length_ljust w s : length (Text.ljust w s) = Nat.max w (length s).
Proof. unfold Text.ljust. rewrite length_app, length_replicate. lia. Qed.

Lemma length_rjust w s : length (Text.rjust w s) = Nat.max w (length s).
Proof. unfold Text.rjust. rewrite length_app, length_replicate. lia. Qed.

Lemma parse_medals_ranked iter w e :
  e ∈ V2.parse_medals iter w -> is_Some (rank e).
Proof. intros He. apply parse_medals_rank in He. rewrite He. eauto. Qed.


Lemma shown_elem a medals e :
  e ∈ Report.limit_top a (Report.filter_country a medals) -> e ∈ medals.
Proof. intros He. eapply elem_of_sublist; [exact He|apply shown_sublist]. Qed.

End TableFacts.


(** X15. In the totals of both programs the last number is the sum of the three
    others, and it is at least the number of entries shown. *)
Theorem totals_rows_add_up iter a w :
  let shown :=
    Report.limit_top a (Report.filter_country a (V2.parse_medals iter w)) in
  let listed := Widget.parse iter w in
  (Report.sum_of total shown
   = Report.sum_of gold shown + Report.sum_of silver shown
     + Report.sum_of bronze shown
   /\ Z.of_nat (length shown) <= Report.sum_of total shown)
  /\ (Report.sum_of total listed
      = Report.sum_of gold listed + Report.sum_of silver listed
        + Report.sum_of bronze listed
      /\ Z.of_nat (length listed) <= Report.sum_of total listed).
Proof.
  intros shown listed. split.
  - destruct (sums_add_up shown) as (H1 & H2 & _); [|now split].
    intros e He. apply shown_elem in He. now apply parse_medals_total in He.
  - destruct (sums_add_up listed) as (H1 & H2 & _); [|now split].
    intros e He. unfold listed in He. rewrite widget_parse_with_names in He.
    apply list_elem_of_fmap in He as (e' & -> & He').
    apply parse_medals_total in He'. exact He'.
Qed.

(** X16. A row of the table is as wide as the header, 59 characters, when every
    field fits its column: a rank, gold, silver and bronze of at most four
    digits, a total of at most five, a name of at most 25 characters and a
    code of at most five. No field is ever cut, so a longer field makes the
    row longer. *)
Theorem table_row_width m r :
  rank m = Some r ->
  0 <= r < 10 ^ 4 -> 0 <= gold m < 10 ^ 4 -> 0 <= silver m < 10 ^ 4 ->
  0 <= bronze m < 10 ^ 4 -> 0 <= total m < 10 ^ 5 ->
  (String.length (country m) <= 25)%nat ->
  (String.length (code m) <= 5)%nat ->
  exists row,
    Report.table_row m = Some row
    /\ length row = 59%nat
    /\ S (length row) = length Report.table_header.
Proof.
  intros Hr Hr' Hg Hs Hb Ht Hn Hc. unfold Report.table_row. rewrite Hr.
  cbn [mbind option_bind]. eexists. split; [reflexivity|].
  assert (Hlen : forall x k, 0 <= x < 10 ^ Z.of_nat k -> (1 <= k)%nat ->
                   (length (Text.str x) <= k)%nat).
  { intros x k Hx Hk. now apply str_length. }
  pose proof (Hlen r 4%nat Hr' ltac:(lia)).
  pose proof (Hlen (gold m) 4%nat Hg ltac:(lia)).
  pose proof (Hlen (silver m) 4%nat Hs ltac:(lia)).
  pose proof (Hlen (bronze m) 4%nat Hb ltac:(lia)).
  pose proof (Hlen (total m) 5%nat Ht ltac:(lia)).
  assert (Hw : forall A B : Prop, A -> (A -> B) -> A /\ B) by tauto.
  apply Hw; [|intros ->; vm_compute; reflexivity].
  rewrite !length_app, !length_ljust, !length_rjust, !length_of_string.
  cbn [String.length]. lia.
Qed.

Lemma table_row_width_witness :
  let m := {| rank := Some 12; code := "NOR"; country := "Norway";
              gold := 18; silver := 12; bronze := 11; total := 41 |} in
  exists row, Report.table_row m = Some row /\ length row = 59%nat.
Proof.
  intros m.
  destruct (table_row_width m 12) as (row & H1 & H2 & _);
    [reflexivity|lia|cbn; lia|cbn; lia|cbn; lia|cbn; lia|cbn; lia|cbn; lia|].
  exists row. split; [exact H1|exact H2].
Defined.

(** ** The widget *)

Section WidgetFacts.

Lemma find_country_Some medals c m :
  Widget.find_country medals c = Some m -> m ∈ medals /\ code m = c.
Proof.
  induction medals as [|x l IH]; cbn [Widget.find_country]; [discriminate|].
  destruct (String.eqb_spec (code x) c) as [Hc|Hc].
  - intros [= <-]. split; [left|exact Hc].
  - intros H. apply IH in H as [H1 H2]. split; [now right|exact H2].
Qed.

Lemma find_country_None medals c :
  Widget.find_country medals c = None -> c ∉ code <$> medals.
Proof.
  induction medals as [|x l IH]; cbn [Widget.find_country].
  - intros _ H. apply elem_of_nil in H. exact H.
  - destruct (String.eqb_spec (code x) c) as [Hc|Hc]; [discriminate|].
    intros H Hin. cbn in Hin. apply elem_of_cons in Hin as [Hin|Hin].
    + congruence.
    + now apply IH.
Qed.

Lemma widget_parse_elem iter w m :
  m ∈ Widget.parse iter w ->
  exists e, e ∈ V2.parse_medals iter w /\ m = with_names Widget.IOC_CODES e.
Proof.
  rewrite widget_parse_with_names. intros H.
  apply list_elem_of_fmap in H as (e & -> & He). eauto.
Qed.

Lemma widget_entry_line iter w m :
  m ∈ Widget.parse iter w -> is_Some (Widget.entry_line m).
Proof.
  intros H. apply widget_parse_elem in H as (e & He & ->).
  apply parse_medals_ranked in He as [r Hr].
  unfold Widget.entry_line. cbn [rank with_names]. rewrite Hr. cbn. eauto.
Qed.

Lemma widget_rows iter w :
  is_Some (mapM Widget.entry_line (Widget.parse iter w)).
Proof.
  apply mapM_is_Some, Forall_forall. intros m. apply widget_entry_line.
Qed.

Lemma highlight_suffix (cells : Text.t) (c : string) :
  Widget.highlight
    `suffix_of` cells ++ Widget.row_attributes
                ++ (if String.eqb c Widget.MY_COUNTRY
                    then Widget.highlight else [])
  <-> c = Widget.MY_COUNTRY.
Proof.
  destruct (String.eqb_spec c Widget.MY_COUNTRY) as [Hc|Hc].
  - split; [intros _; exact Hc|intros _].
    do 2 apply suffix_app_r. reflexivity.
  - split; [|intros; contradiction]. intros [k Hk]. exfalso.
    apply (f_equal last) in Hk. revert Hk.
    change (Widget.row_attributes ++ [])
      with (Text.of_string " | font=monospace size=1" ++ [49%N]).
    change Widget.highlight with (Text.of_string " color=#3584e" ++ [52%N]).
    rewrite !app_assoc, !last_snoc. discriminate.
Qed.

Lemma widget_main_is_some iter w :
  is_Some (Widget.main iter (Some w)).
Proof.
  unfold Widget.main. cbn [Widget.fetch_medals].
  pose proof (widget_rows iter w) as [rows Hrows].
  destruct (Widget.parse iter w) as [|leader rest]; [eauto|].
  rewrite Hrows. cbn [mbind option_bind]. eauto.
Qed.

Lemma widget_names_fit :
  map_Forall (fun _ name => (String.length name <= 20)%nat) Widget.IOC_CODES.
Proof. apply (bool_decide_unpack _). vm_compute. exact I. Qed.

End WidgetFacts.

(** X17. [find_country] returns the first entry of the list with the code asked
    for, and [None] exactly when no entry has it. *)
Theorem find_country_first_match medals c :
  match Widget.find_country medals c with
  | Some m =>
      exists before after,
        medals = before ++ m :: after /\ code m = c
        /\ c ∉ code <$> before
  | None => c ∉ code <$> medals
  end.
Proof.
  induction medals as [|x l IH]; cbn [Widget.find_country].
  - intros H. apply elem_of_nil in H. exact H.
  - destruct (String.eqb_spec (code x) c) as [Hc|Hc].
    + exists [], l. split; [reflexivity|]. split; [exact Hc|].
      intros H. apply elem_of_nil in H. exact H.
    + destruct (Widget.find_country l c) as [m|].
      * destruct IH as (before & after & -> & Hm & Hb).
        exists (x :: before), after. split; [reflexivity|].
        split; [exact Hm|]. cbn. intros H.
        apply elem_of_cons in H as [H|H]; [congruence|contradiction].
      * cbn. intros H.
        apply elem_of_cons in H as [H|H]; [congruence|contradiction].
Qed.


(** X19. The top bar shows the tally of [MY_COUNTRY] whenever the table has an
    entry for it, however low it ranks, and the tally of the leader
    otherwise: an entry of the table always has a medal, so the test
    [mine["total"] > 0] never sends an entry that was found to the leader's
    branch. *)
Theorem top_bar_shows_mine_or_leader iter w leader rest :
  Widget.parse iter w = leader :: rest ->
  exists who lines,
    Widget.main iter (Some w)
    = Some ((Widget.tally (code who) who
             ++ Text.of_string " | refresh=true") :: lines)
    /\ who ∈ leader :: rest
    /\ (Widget.MY_COUNTRY ∈ code <$> leader :: rest ->
          code who = Widget.MY_COUNTRY)
    /\ (Widget.MY_COUNTRY ∉ code <$> leader :: rest -> who = leader).
Proof.
  intros Hp. unfold Widget.main. cbn [Widget.fetch_medals].
  pose proof (widget_rows iter w) as [rows Hrows].
  assert (Htot : forall m, m ∈ leader :: rest -> (total m >? 0) = true).
  { intros m Hm. rewrite <- Hp in Hm.
    apply widget_parse_elem in Hm as (e & He & ->).
    apply parse_medals_total in He. cbn [total with_names].
    apply Z.gtb_lt. lia. }
  rewrite Hp in *. rewrite Hrows. cbn [mbind option_bind].
  destruct (Widget.find_country (leader :: rest) Widget.MY_COUNTRY)
    as [mine|] eqn:Ef.
  - apply find_country_Some in Ef as [Hin Hc].
    rewrite (Htot mine Hin). exists mine. eexists.
    split; [rewrite Hc; reflexivity|]. split; [exact Hin|].
    split; [intros _; exact Hc|].
    intros Hno. exfalso. apply Hno. rewrite <- Hc.
    apply list_elem_of_fmap. eauto.
  - apply find_country_None in Ef. exists leader. eexists.
    split; [reflexivity|]. split; [left|]. split; [|reflexivity].
    intros Hin. contradiction.
Qed.

Lemma top_bar_shows_mine_or_leader_witness :
  exists who lines,
    Widget.main elements
      (Some "| gold_NOR = 5 | gold_NED = 4 | gold_USA = 3 | gold_SWE = 2")
    = Some ((Widget.tally (code who) who
             ++ Text.of_string " | refresh=true") :: lines)
    /\ code who = "USA".
Proof.
  destruct (top_bar_shows_mine_or_leader elements
              "| gold_NOR = 5 | gold_NED = 4 | gold_USA = 3 | gold_SWE = 2"
              {| rank := Some 1; code := "NOR"; country := "Norway";
                 gold := 5; silver := 0; bronze := 0; total := 5 |}
              (tail (Widget.parse elements
                 "| gold_NOR = 5 | gold_NED = 4 | gold_USA = 3 | gold_SWE = 2")))
    as (who & lines & H1 & _ & H3 & _); [vm_compute; reflexivity|].
  exists who, lines. split; [exact H1|]. apply H3.
  apply (bool_decide_unpack _). vm_compute. exact I.
Defined.

(** X20. The rows of the menu are the entries of the table, in its order, from
    the seventh line on, and a row is highlighted exactly when its code is
    [MY_COUNTRY]. *)
Theorem entry_rows_in_order iter w i m lines :
  Widget.main iter (Some w) = Some lines ->
  Widget.parse iter w !! i = Some m ->
  exists line,
    lines !! (6 + i)%nat = Some line
    /\ Widget.entry_line m = Some line
    /\ (Widget.highlight `suffix_of` line <-> code m = Widget.MY_COUNTRY).
Proof.
  unfold Widget.main. cbn [Widget.fetch_medals]. intros Hmain Hi.
  pose proof (widget_rows iter w) as [rows Hrows].
  apply mapM_Some in Hrows as Hall.
  destruct (Forall2_lookup_l _ _ _ _ _ Hall Hi) as (line & Hline & Heq).
  destruct (Widget.parse iter w) as [|leader rest];
    [rewrite lookup_nil in Hi; discriminate|].
  rewrite Hrows in Hmain. cbn [mbind option_bind] in Hmain.
  injection Hmain as <-. exists line. split; [|split; [exact Heq|]].
  - cbn [app]. change (6 + i)%nat with (S (S (S (S (S (S i)))))).
    rewrite !lookup_cons_ne_0 by lia. cbn [Nat.pred].
    rewrite lookup_app_l by (apply lookup_lt_Some in Hline; exact Hline).
    exact Hline.
  - unfold Widget.entry_line in Heq. destruct (rank m) as [r|]; [|discriminate].
    cbn [mbind option_bind] in Heq. injection Heq as <-.
    apply highlight_suffix.
Qed.

Lemma entry_rows_in_order_witness :
  exists lines line,
    Widget.main elements
      (Some "| gold_NOR = 5 | gold_NED = 4 | gold_USA = 3 | gold_SWE = 2")
    = Some lines
    /\ lines !! 8%nat = Some line
    /\ Widget.highlight `suffix_of` line.
Proof.
  destruct (widget_main_is_some elements
              "| gold_NOR = 5 | gold_NED = 4 | gold_USA = 3 | gold_SWE = 2")
    as [lines Hl].
  destruct (entry_rows_in_order elements _ 2%nat
              {| rank := Some 3; code := "USA"; country := "United States";
                 gold := 3; silver := 0; bronze := 0; total := 3 |}
              lines Hl)
    as (line & H1 & _ & H3); [vm_compute; reflexivity|].
  exists lines, line. split; [exact Hl|]. split; [exact H1|].
  apply H3. reflexivity.
Defined.

(** X21. The row of an entry whose code is in the widget's table lines up with
    the column headers when its numbers fit: the name has at most 20
    characters, as every name of the table has, so with a rank and medal
    counts below 1000 and a total below 10000 the cells take 42
    characters. *)
Theorem widget_columns_align iter w m r :
  m ∈ Widget.parse iter w ->
  is_Some (Widget.IOC_CODES !! code m) ->
  rank m = Some r ->
  r < 10 ^ 3 -> gold m < 10 ^ 3 -> silver m < 10 ^ 3 -> bronze m < 10 ^ 3 ->
  total m < 10 ^ 4 ->
  exists cells,
    Widget.entry_line m
    = Some (cells ++ Widget.row_attributes
            ++ (if String.eqb (code m) Widget.MY_COUNTRY
                then Widget.highlight else []))
    /\ length cells = 42%nat
    /\ length (cells ++ Widget.row_attributes)
       = length Widget.column_headers.
Proof.
  intros Hm [name Hname] Hr Hr' Hg Hs Hb Ht.
  pose proof Hm as Hm'. apply widget_parse_elem in Hm' as (e & He & Heq).
  pose proof (parse_medals_total iter w e He) as (_ & Ht1 & Hg0 & Hs0 & Hb0).
  assert (Hrank : 1 <= r).
  { apply list_elem_of_lookup in He as [i Hi].
    rewrite parse_medals_steps in Hi.
    eapply ranked_bound in Hi as (r' & Hr1 & Hr2); [|discriminate].
    rewrite Heq in Hr. cbn [rank with_names] in Hr.
    assert (r' = r) by congruence. lia. }
  assert (Hcountry : (String.length (country m) <= 20)%nat).
  { rewrite Heq in Hname |- *. cbn [code country with_names] in *.
    unfold get. rewrite Hname. cbn [default].
    exact (widget_names_fit _ _ Hname). }
  rewrite Heq in Hg, Hs, Hb, Ht. cbn [gold silver bronze total with_names] in *.
  unfold Widget.entry_line. rewrite Hr. cbn [mbind option_bind]. cbv zeta.
  eexists. split; [reflexivity|].
  assert (Hlen : forall x k, 0 <= x < 10 ^ Z.of_nat k -> (1 <= k)%nat ->
                   (length (Text.str x) <= k)%nat).
  { intros x k Hx Hk. now apply str_length. }
  pose proof (Hlen r 3%nat ltac:(lia) ltac:(lia)).
  pose proof (Hlen (gold e) 3%nat ltac:(lia) ltac:(lia)).
  pose proof (Hlen (silver e) 3%nat ltac:(lia) ltac:(lia)).
  pose proof (Hlen (bronze e) 3%nat ltac:(lia) ltac:(lia)).
  pose proof (Hlen (total e) 4%nat ltac:(lia) ltac:(lia)).
  assert (Hw : forall A B : Prop, A -> (A -> B) -> A /\ B) by tauto.
  apply Hw.
  - rewrite !length_app, !length_ljust, !length_rjust, !length_of_string.
    rewrite Heq. cbn [country gold silver bronze total with_names String.length].
    rewrite Heq in Hcountry. cbn [country with_names] in Hcountry. lia.
  - intros Hcells. rewrite length_app, Hcells. vm_compute. reflexivity.
Qed.

Lemma widget_columns_align_witness :
  let m := {| rank := Some 1; code := "BIH";
              country := "Bosnia & Herzegovina";
              gold := 1; silver := 0; bronze := 0; total := 1 |} in
  exists cells,
    Widget.entry_line m = Some (cells ++ Widget.row_attributes ++ [])
    /\ length cells = 42%nat.
Proof.
  intros m.
  destruct (widget_columns_align elements "| gold_BIH = 1" m 1)
    as (cells & H1 & H2 & _).
  - vm_compute. left.
  - eexists. vm_compute. reflexivity.
  - reflexivity.
  - cbn; lia.
  - cbn; lia.
  - cbn; lia.
  - cbn; lia.
  - cbn; lia.
  - exists cells. split; [exact H1|exact H2].
Defined.
